(** * Rust code generation of autocxx (engine/src/conversion/codegen_rs/mod.rs)

    A shallow embedding of [RsCodeGenerator]: the per-API emitter
    [generate_rs_for_api], the two pre-passes
    [accumulate_superclass_methods] and [find_trivially_constructed_subclasses],
    the error placeholders and the two namespace renderers.

    Generated Rust syntax ([syn::Item], [syn::ForeignItem], ...) is modelled
    by small inductive types that keep exactly the parts this file puts in
    (names, paths, attributes, bodies); a [parse_quote!] becomes a constructor.
    A panic ([unwrap], [expect]) is [None] in the [option] monad. *)

From Stdlib Require Import Permutation Ascii.
From stdpp Require Import base list gmap sets strings.

Set Warnings "-register-all".
Open Scope string_scope.
Open Scope list_scope.

Notation "a +s+ b" := (String.append a b) (at level 60, right associativity).

(** ** Names *)

Definition Ident := string.

(** [types::QualifiedName]: a namespace and a final identifier. *)
Record QualifiedName := QN { qn_ns : list string; qn_name : Ident }.

#[global] Instance QualifiedName_eq_dec : EqDecision QualifiedName.
Proof. solve_decision. Defined.

#[global] Instance QualifiedName_countable : Countable QualifiedName.
Proof.
  apply (inj_countable' (fun q => (qn_ns q, qn_name q)) (fun p => QN p.1 p.2)).
  by intros [].
Defined.

(** [api::SubclassName(ApiName { name, .. })]. *)
Record SubclassName := SubclassName_ { sub_name : QualifiedName }.

(** ** Generated Rust syntax *)

Inductive ReceiverMutability := Const | Mutable.

(** [syn::Pat]: only identifier patterns are told apart. *)
Inductive Pat := PatIdent (id : Ident) | PatOther.

(** [syn::FnArg]: [self], [&self] / [&mut self], or [pat: ty]. *)
Inductive FnArg :=
| FnArgSelf
| FnArgReceiver (rm : ReceiverMutability)
| FnArgTyped (pat : Pat) (ty : string).

(** [syn::Expr], as far as this file builds expressions. *)
Inductive Expr :=
| EId (id : Ident)
| EPat (p : Pat)
| ERef (e : Expr)
| ECall (f : list Ident) (args : list Expr)
| EMethodCall (recv : Expr) (m : Ident) (args : list Expr).

(** The statements of a subclass forwarding function
    ([generate_subclass_fn]). *)
Inductive Stmt :=
| SLetBackRef (destroy_msg : string)
    (* let rc = me.0.get().expect(destroy_msg); *)
| SLetBorrow (mut_token : bool) (borrow : Ident) (reentrancy_msg : string)
    (* let [mut] b = rc.as_ref().borrow().expect(reentrancy_msg); *)
| SLetDeref (deref_ty deref_call : Ident) (mut_token : bool)
    (* let r = std::ops::deref_ty::deref_call(&[mut] b); *)
| SCallMethodsTrait (methods_trait : string) (method_name : Ident) (args : list Expr).
    (* methods_trait::method_name(r, args) *)

Inductive Body :=
| BExpr (e : Expr)
| BStmts (ss : list Stmt).

(** A function: free, trait, impl or foreign; [fn_body = None] is a
    declaration ending in [;]. *)
Record FnDef := FnDef_ {
  fn_doc : option string;
  fn_unsafe : bool;
  fn_name : Ident;
  fn_params : list FnArg;
  fn_ret : string;
  fn_body : option Body
}.

(** A struct as bindgen produced it ([syn::ItemStruct]). *)
Record ItemStruct := ItemStruct_ {
  st_doc : option string;
  st_name : Ident;
  st_fields : list (Ident * string)
}.

(** An enum as bindgen produced it ([syn::ItemEnum]). *)
Record ItemEnum := ItemEnum_ {
  en_doc : option string;
  en_name : Ident;
  en_variants : list Ident
}.

(** [syn::ForeignItem]. *)
Inductive ForeignItem :=
| FType (namespace : option string) (cxx_name : option string) (doc : option string)
        (id : Ident) (bindgen_target : option (list Ident))
    (* [#[namespace] #[cxx_name] #[doc] type id [= super::bindgen::root::ns::id];] *)
| FFn (f : FnDef)
| FInclude (header : string)
| FVerbatim (text : string).

(** [syn::Item]. *)
Inductive Item :=
| IStruct (s : ItemStruct)
| IEnum (e : ItemEnum)
| IConst (name : Ident) (value : string)
| ITypeAlias (name : Ident) (target : string)
| IUse (path : list Ident) (alias : option Ident)
| IExternTypeImpl (path : list Ident) (id_string : string) (kind : Ident)
| ITrait (name : Ident) (supertrait : option Ident) (items : list FnDef)
| IImpl (trait_ : option string) (self_ty : string) (items : list FnDef)
| IFn (f : FnDef)
| IMod (name : Ident) (items : list Item)
| IForeignMod (unsafe : bool) (abi : string) (items : list ForeignItem)
| IVerbatim (text : string).

(** [Use]: how an item is exposed in the mods built for end users. *)
Inductive Use :=
| UsedFromCxxBridge
| UsedFromCxxBridgeWithAlias (alias : Ident)
| UsedFromBindgen
| SpecificNameFromBindgen (id : Ident)
| Custom (item : Item).

(** [api::ImplBlockDetails]. *)
Record ImplBlockDetails := ImplBlockDetails_ { ibd_item : FnDef; ibd_ty : Ident }.

(** [RsCodegenResult]: the bundle produced for one API. *)
Record RsCodegenResult := RsCodegenResult_ {
  extern_c_mod_items : list ForeignItem;
  extern_rust_mod_items : list ForeignItem;
  bridge_items : list Item;
  global_items : list Item;
  bindgen_mod_items : list Item;
  impl_entry : option ImplBlockDetails;
  materializations : list Use
}.

(** [RsCodegenResult::default()]. *)
Definition empty_result : RsCodegenResult :=
  RsCodegenResult_ [] [] [] [] [] None [].

(** ** APIs handed over by the analysis phase *)

Inductive MethodKind :=
| MKNormal (rm : ReceiverMutability)
| MKConstructor
| MKMakeUnique
| MKStatic
| MKVirtual (rm : ReceiverMutability)
| MKPureVirtual (rm : ReceiverMutability).

Inductive FnKind :=
| FKFunction
| FKMethod (receiver : QualifiedName) (mk : MethodKind)
| FKTraitMethod.

Inductive TypeKind := Pod | NonPod | NonPodNested | Abstract.

Inductive TypedefKind :=
| TypedefType (name : Ident) (target : string)
| TypedefUse (path : list Ident).

(** [convert_error::ErrorContext]. *)
Inductive ErrorContext :=
| ECItem (id : Ident)
| ECMethod (self_ty : Ident) (method : Ident).

(** The part of [analysis::fun::ArgumentAnalysis] this file reads. *)
Record ArgumentAnalysis := ArgumentAnalysis_ { pd_name : Pat; pd_requires_unsafe : bool }.

(** The part of [analysis::fun::FnAnalysis] this file reads. *)
Record FnAnalysis := FnAnalysis_ {
  fa_kind : FnKind;
  fa_params : list FnArg;
  fa_ret_type : string;
  fa_param_details : list ArgumentAnalysis
}.

(** [api::RustSubclassFnDetails]. *)
Record RustSubclassFnDetails := RustSubclassFnDetails_ {
  d_params : list FnArg;
  d_ret : string;
  d_method_name : Ident;
  d_superclass : QualifiedName;
  d_receiver_mutability : ReceiverMutability;
  d_requires_unsafe : bool
}.

(** The function as parsed, passed on untouched to [gen_function]. *)
Record FuncToConvert := FuncToConvert_ { ftc_ident : Ident }.

(** [api::Api<FnPhase>]: one constructor per variant, with the fields
    this file reads. *)
Inductive Api :=
| ApiStringConstructor (name : QualifiedName)
| ApiFunction (name : QualifiedName) (fun_ : FuncToConvert) (analysis : FnAnalysis)
| ApiConst (name : QualifiedName) (const_value : string)
| ApiTypedef (name : QualifiedName) (kind : TypedefKind)
| ApiStruct (name : QualifiedName) (item : ItemStruct) (kind : TypeKind)
| ApiEnum (name : QualifiedName) (item : ItemEnum)
| ApiForwardDeclaration (name : QualifiedName)
| ApiConcreteType (name : QualifiedName)
| ApiCType (name : QualifiedName)
| ApiRustType (name : QualifiedName) (path : list Ident)
| ApiRustFn (name : QualifiedName) (sig : FnDef) (path : list Ident)
| ApiRustSubclassFn (name : QualifiedName) (subclass : SubclassName) (details : RustSubclassFnDetails)
| ApiSubclass (name : SubclassName) (superclass : QualifiedName)
| ApiRustSubclassConstructor (name : QualifiedName) (subclass : SubclassName) (is_trivial : bool)
| ApiIgnoredItem (name : QualifiedName) (err : string) (ctx : ErrorContext).

(** [Api::name]. *)
Definition api_name (api : Api) : QualifiedName :=
  match api with
  | ApiStringConstructor n | ApiFunction n _ _ | ApiConst n _ | ApiTypedef n _
  | ApiStruct n _ _ | ApiEnum n _ | ApiForwardDeclaration n | ApiConcreteType n
  | ApiCType n | ApiRustType n _ | ApiRustFn n _ _ | ApiRustSubclassFn n _ _
  | ApiRustSubclassConstructor n _ _ | ApiIgnoredItem n _ _ => n
  | ApiSubclass s _ => sub_name s
  end.

(** [IncludeCppConfig], the parts read here. *)
Record IncludeCppConfig := IncludeCppConfig_ {
  superclasses : list string;
  exclude_utilities : bool;
  makestring_name : string;
  mod_name : string
}.

(** ** find_trivially_constructed_subclasses *)

Definition constructor_of (api : Api) : option (QualifiedName * bool) :=
  match api with
  | ApiRustSubclassConstructor _ subclass is_trivial => Some (sub_name subclass, is_trivial)
  | _ => None
  end.

Definition find_trivially_constructed_subclasses (apis : list Api) : gset QualifiedName :=
  let '(simple_constructors, complex_constructors) :=
    List.partition (fun p : QualifiedName * bool => p.2) (omap constructor_of apis) in
  let simple_constructors : gset QualifiedName := list_to_set (map fst simple_constructors) in
  let complex_constructors : gset QualifiedName := list_to_set (map fst complex_constructors) in
  simple_constructors ∖ complex_constructors.

(** ** Names built from strings *)

(** [str::split("::")]. *)
Fixpoint split_double_colon (s : string) (cur : string) : list string :=
  match s with
  | EmptyString => [cur]
  | String ":"%char (String ":"%char rest) => cur :: split_double_colon rest ""
  | String c rest => split_double_colon rest (String.append cur (String c EmptyString))
  end.

(** Modelled from the spec: [QualifiedName::new_from_cpp_name] (in
    types.rs) "construct from a foreign-style [::]-delimited name": the
    last segment is the identifier, the others the namespace. *)
Definition new_from_cpp_name (s : string) : QualifiedName :=
  let segs := split_double_colon s "" in
  QN (removelast segs) (List.last segs "").

(** [QualifiedName::to_cpp_name]. *)
Definition to_cpp_name (q : QualifiedName) : string :=
  String.concat "::" (qn_ns q ++ [qn_name q]).

(** Modelled from the spec: [namespaced_name_using_original_name_map]
    (codegen_cpp/type_to_cpp.rs) renders the identity string of a type from
    the "lookup table mapping a qualified name to its original (pre-rename)
    foreign-side name". *)
Definition namespaced_name_using_original_name_map
    (q : QualifiedName) (m : gmap QualifiedName string) : string :=
  match m !! q with
  | Some cpp_name => String.concat "::" (qn_ns q ++ [cpp_name])
  | None => to_cpp_name q
  end.

(** ** get_string_items *)

Definition into_cpp (body : option Body) : FnDef :=
  FnDef_ None false "into_cpp" [FnArgSelf] "cxx::UniquePtr<cxx::CxxString>" body.

Definition get_string_items : list Item :=
  [ ITrait "ToCppString" None [into_cpp None];
    IImpl (Some "ToCppString") "&str"
      [into_cpp (Some (BExpr (ECall ["make_string"] [EId "self"])))];
    IImpl (Some "ToCppString") "String"
      [into_cpp (Some (BExpr (ECall ["make_string"] [ERef (EId "self")])))];
    IImpl (Some "ToCppString") "&String"
      [into_cpp (Some (BExpr (ECall ["make_string"] [EId "self"])))];
    IImpl (Some "ToCppString") "cxx::UniquePtr<cxx::CxxString>"
      [into_cpp (Some (BExpr (EId "self")))] ].

(** ** The generator and its collaborators outside this file *)

(** [RsCodeGenerator] (the [bindgen_mod] field is only touched by the
    final assembly). *)
Record RsCodeGenerator := RsCodeGenerator_ {
  include_list : list string;
  original_name_map : gmap QualifiedName string;
  config : IncludeCppConfig
}.

(** [SuperclassMethod]. *)
Record SuperclassMethod := SuperclassMethod_ {
  sm_name : Ident;
  sm_params : list FnArg;
  sm_param_names : list Pat;
  sm_ret_type : string;
  sm_receiver_mutability : ReceiverMutability;
  sm_requires_unsafe : bool
}.

(** The functions this file calls from sibling modules of the crate
    (fun_codegen, impl_item_creator, non_pod_struct, known_types, unqualify
    and the naming helpers of [SubclassName] and [QualifiedName]); every theorem below holds whatever
    they return. *)
Record Externals := Externals_ {
  gen_function : list string -> FuncToConvert -> FnAnalysis -> string -> RsCodegenResult;
  create_impl_items : Ident -> IncludeCppConfig -> list Item;
  make_non_pod : ItemStruct -> ItemStruct;
  new_non_pod_struct : Ident -> ItemStruct;
  conflicts_with_built_in_type : QualifiedName -> bool;
  effective_cpp_name : Api -> string;
  sub_id : SubclassName -> Ident;
  sub_holder : SubclassName -> Ident;
  sub_cpp : SubclassName -> QualifiedName;
  sub_cpp_remove_ownership : SubclassName -> Ident;
  sub_remove_ownership : SubclassName -> Ident;
  get_supers_trait_name : QualifiedName -> QualifiedName;
  get_methods_trait_name : QualifiedName -> QualifiedName;
  to_type_path : QualifiedName -> string;
  get_bindgen_path_idents : QualifiedName -> list Ident;
  unqualify_type : string -> string;
  unqualify_ret_type : string -> string;
  needs_cpp_codegen : Api -> bool;
  original_name_map_from_apis : list Api -> gmap QualifiedName string
}.

(** ** accumulate_superclass_methods *)

Definition superclass_method_of (name : QualifiedName) (a : FnAnalysis)
    (rm : ReceiverMutability) : SuperclassMethod :=
  {| sm_name := qn_name name;
     sm_params := fa_params a;
     sm_ret_type := fa_ret_type a;
     sm_param_names := map pd_name (fa_param_details a);
     sm_receiver_mutability := rm;
     sm_requires_unsafe := existsb pd_requires_unsafe (fa_param_details a) |}.

(** The receiver and mutability of a virtual or pure virtual method. *)
Definition virtual_receiver (a : FnAnalysis) : option (QualifiedName * ReceiverMutability) :=
  match fa_kind a with
  | FKMethod receiver (MKVirtual rm) | FKMethod receiver (MKPureVirtual rm) => Some (receiver, rm)
  | _ => None
  end.

(** One iteration of the [for api in apis] loop. *)
Definition accumulate_step (results : gmap QualifiedName (list SuperclassMethod))
    (api : Api) : gmap QualifiedName (list SuperclassMethod) :=
  match api with
  | ApiFunction name _ analysis =>
      match virtual_receiver analysis with
      | Some (receiver, rm) =>
          match results !! receiver with
          | Some list => <[receiver := list ++ [superclass_method_of name analysis rm]]> results
          | None => results
          end
      | None => results
      end
  | _ => results
  end.

Definition accumulate_superclass_methods (self : RsCodeGenerator) (apis : list Api)
    : gmap QualifiedName (list SuperclassMethod) :=
  let results : gmap QualifiedName (list SuperclassMethod) :=
    list_to_map (map (fun sc => (new_from_cpp_name sc, [])) (superclasses (config self))) in
  foldl accumulate_step results apis.

(** [args_from_sig]: the parameters after the first, as expressions, the
    ones that are not [pat: ty] with an identifier pattern dropped. *)
Definition arg_expr (fnarg : FnArg) : option Expr :=
  match fnarg with
  | FnArgTyped (PatIdent id) _ => Some (EId id)
  | _ => None
  end.

Definition args_from_sig (params : list FnArg) : list Expr :=
  omap arg_expr (drop 1 params).

(** Modelled from the spec: [unqualify::unqualify_params] rewrites the
    type of each [pat: ty] parameter and nothing else, so that the
    forwarding call passes "all remaining arguments positionally in their
    original order" (§4.4). *)
Definition unqualify_params (ext : Externals) (params : list FnArg) : list FnArg :=
  map (fun p => match p with
                | FnArgTyped pat ty => FnArgTyped pat (unqualify_type ext ty)
                | _ => p
                end) params.

(** [*(params.iter_mut().next().unwrap()) = first_param]: [None] is the
    panic of [unwrap] on an empty parameter list. *)
Definition replace_first_param (params : list FnArg) (first_param : FnArg) : option (list FnArg) :=
  match params with
  | [] => None
  | _ :: rest => Some (first_param :: rest)
  end.

(** The panic messages of a forwarding function. *)
Definition destroy_panic_msg (method_name subclass superclass_id : string) : string :=
  "Rust subclass API (method " +s+ method_name +s+ " of subclass " +s+ subclass
  +s+ " of superclass " +s+ superclass_id +s+ ") called after subclass destroyed".

Definition reentrancy_panic_msg (method_name subclass superclass_id : string) : string :=
  "Rust subclass API (method " +s+ method_name +s+ " of subclass " +s+ subclass
  +s+ " of superclass " +s+ superclass_id
  +s+ ") called whilst subclass already borrowed - likely a re-entrant call".

(** The borrow, deref trait, deref function and [mut] token chosen by the
    receiver mutability. *)
Definition borrow_kind (rm : ReceiverMutability) : Ident * Ident * Ident * bool :=
  match rm with
  | Const => ("Deref", "deref", "try_borrow", false)
  | Mutable => ("DerefMut", "deref_mut", "try_borrow_mut", true)
  end.

Section Codegen.
Context (ext : Externals) (self : RsCodeGenerator).

Definition generate_subclass_fn (api_name : Ident) (details : RustSubclassFnDetails)
    (subclass : SubclassName) : RsCodegenResult :=
  let params := d_params details in
  let ret := d_ret details in
  let unsafe_token := d_requires_unsafe details in
  let params' := unqualify_params ext params in
  let ret' := unqualify_ret_type ext ret in
  let method_name := d_method_name details in
  let cxxbridge_decl := FnDef_ None unsafe_token api_name params' ret' None in
  let args := args_from_sig (fn_params cxxbridge_decl) in
  let superclass_id := qn_name (d_superclass details) in
  let methods_trait := to_type_path ext (get_methods_trait_name ext (d_superclass details)) in
  let '(deref_ty, deref_call, borrow, mut_token) := borrow_kind (d_receiver_mutability details) in
  let destroy_msg := destroy_panic_msg method_name (to_cpp_name (sub_name subclass)) superclass_id in
  let reentrancy_msg := reentrancy_panic_msg method_name (to_cpp_name (sub_name subclass)) superclass_id in
  {| extern_c_mod_items := [];
     bridge_items := [];
     bindgen_mod_items := [];
     materializations := [];
     global_items :=
       [IFn (FnDef_ None unsafe_token api_name params ret
               (Some (BStmts [SLetBackRef destroy_msg;
                              SLetBorrow mut_token borrow reentrancy_msg;
                              SLetDeref deref_ty deref_call mut_token;
                              SCallMethodsTrait methods_trait method_name args])))];
     impl_entry := None;
     extern_rust_mod_items := [FFn cxxbridge_decl] |}.

(** [generate_cxxbridge_type]. *)
Definition generate_cxxbridge_type (name : QualifiedName) (references_bindgen : bool)
    (doc_attr : option string) : ForeignItem :=
  let ns := qn_ns name in
  let id := qn_name name in
  let '(ns_components, cxx_name) :=
    match original_name_map self !! name with
    | Some cpp_name =>
        let cpp_name := new_from_cpp_name cpp_name in
        (ns ++ qn_ns cpp_name, Some (qn_name cpp_name))
    | None => (ns, None)
    end in
  FType (match ns_components with [] => None | _ => Some (String.concat "::" ns_components) end)
        cxx_name doc_attr id
        (if references_bindgen then Some (["super"; "bindgen"; "root"] ++ ns ++ [id]) else None).

(** [generate_extern_type_impl]. *)
Definition generate_extern_type_impl (type_kind : TypeKind) (tyname : QualifiedName) : list Item :=
  let tynamestring := namespaced_name_using_original_name_map tyname (original_name_map self) in
  let kind_item := match type_kind with Pod => "Trivial" | _ => "Opaque" end in
  [IExternTypeImpl (get_bindgen_path_idents ext tyname) tynamestring kind_item].

(** The two trait items made from one superclass method in
    [add_superclass_stuff_to_type]. *)
Definition superclass_trait_items (method : SuperclassMethod) : option (FnDef * FnDef) :=
  let id := sm_name method in
  let super_id := id +s+ "_super" in
  let param_names := args_from_sig (sm_params method) in
  params ← replace_first_param (sm_params method) (FnArgReceiver (sm_receiver_mutability method));
  let ret_type := sm_ret_type method in
  let unsafe_token := sm_requires_unsafe method in
  Some (FnDef_ None unsafe_token super_id params ret_type None,
        FnDef_ None unsafe_token id params ret_type
          (Some (BExpr (EMethodCall (EId "self") super_id param_names)))).

Definition add_superclass_stuff_to_type (name : QualifiedName) (bindgen_mod_items : list Item)
    (materializations : list Use) (methods : option (list SuperclassMethod))
    : option (list Item * list Use) :=
  match methods with
  | None => Some (bindgen_mod_items, materializations)
  | Some methods =>
      pairs ← mapM superclass_trait_items methods;
      let supers_name := qn_name (get_supers_trait_name ext name) in
      let methods_name := qn_name (get_methods_trait_name ext name) in
      Some (bindgen_mod_items ++ [ITrait supers_name None (map fst pairs);
                                  ITrait methods_name (Some supers_name) (map snd pairs)],
            materializations ++ [SpecificNameFromBindgen methods_name;
                                 SpecificNameFromBindgen supers_name])
  end.

(** [generate_type]; [item_creator] is passed as the value it returns. *)
Definition generate_type (name : QualifiedName) (id : Ident) (type_kind : TypeKind)
    (orig_item : option (Item * option string))
    (associated_methods : gmap QualifiedName (list SuperclassMethod)) : option RsCodegenResult :=
  '(bindgen_mod_items, materializations) ←
    add_superclass_stuff_to_type name [] [UsedFromCxxBridge] (associated_methods !! name);
  match type_kind with
  | Pod | NonPodNested =>
      '(item, _) ← orig_item;
      let item :=
        match type_kind with
        | NonPodNested =>
            match item with
            | IStruct s => IStruct (make_non_pod ext s)
            | _ => IStruct (new_non_pod_struct ext id)
            end
        | _ => item
        end in
      Some {| global_items := generate_extern_type_impl type_kind name;
              impl_entry := None;
              bridge_items := create_impl_items ext id (config self);
              extern_c_mod_items := [generate_cxxbridge_type name true None];
              bindgen_mod_items := bindgen_mod_items ++ [item];
              materializations := materializations;
              extern_rust_mod_items := [] |}
  | NonPod | Abstract =>
      let bindgen_mod_items := bindgen_mod_items ++ [IUse ["cxxbridge"; id] None] in
      let doc_attr := match orig_item with Some (_, d) => d | None => None end in
      Some {| extern_c_mod_items := [generate_cxxbridge_type name false doc_attr];
              extern_rust_mod_items := [];
              bridge_items := [];
              global_items := [];
              bindgen_mod_items := bindgen_mod_items;
              impl_entry := None;
              materializations := materializations |}
  end.

(** [sanitize_error_ident]. *)
Definition sanitize_error_ident (id : Ident) : option Ident :=
  let qn := QN [] id in
  if conflicts_with_built_in_type ext qn then Some (qn_name qn +s+ "_autocxx_error") else None.

Definition error_doc (err : string) : string :=
  "autocxx bindings couldn't be generated: " +s+ err.

(** [generate_error_entry]; the error is given by its [Display] text. *)
Definition generate_error_entry (err : string) (ctx : ErrorContext) : RsCodegenResult :=
  let err := error_doc err in
  let '(impl_entry, materialization) :=
    match ctx with
    | ECItem id =>
        let id := match sanitize_error_ident id with Some i => i | None => id end in
        (None, Some (Custom (IStruct (ItemStruct_ (Some err) id []))))
    | ECMethod self_ty method =>
        match sanitize_error_ident self_ty with
        | None =>
            let method := match sanitize_error_ident method with Some i => i | None => method end in
            (Some (ImplBlockDetails_
                     (FnDef_ (Some err) false method
                        [FnArgTyped (PatIdent "_uhoh") "autocxx::BindingGenerationFailure"] ""
                        (Some (BStmts [])))
                     self_ty),
             None)
        | Some _ =>
            let id := self_ty +s+ "_method_" +s+ method in
            (None, Some (Custom (IStruct (ItemStruct_ (Some err) id []))))
        end
    end in
  {| global_items := [];
     impl_entry := impl_entry;
     bridge_items := [];
     extern_c_mod_items := [];
     bindgen_mod_items := [];
     materializations := match materialization with Some m => [m] | None => [] end;
     extern_rust_mod_items := [] |}.

(** The impl of the supers trait item made from one superclass method in
    [generate_subclass] (the [use autocxx::subclass::CppSubclass;] line of
    its body is left out). *)
Definition subclass_super_impl_item (m : SuperclassMethod) : option FnDef :=
  let supern := sm_name m +s+ "_super" in
  let ret := sm_ret_type m in
  let cpp_method_name := sm_name m +s+ "_super" in
  let '(peer_fn, first_param) :=
    match sm_receiver_mutability m with
    | Const => ("peer", FnArgReceiver Const)
    | Mutable => ("peer_mut", FnArgReceiver Mutable)
    end in
  params ← replace_first_param (sm_params m) first_param;
  let param_names := drop 1 (sm_param_names m) in
  Some (FnDef_ None (sm_requires_unsafe m) supern params ret
          (Some (BExpr (EMethodCall (EMethodCall (EId "self") peer_fn [])
                                    cpp_method_name (map EPat param_names))))).

Definition generate_subclass (sub : SubclassName) (superclass : QualifiedName)
    (methods : option (list SuperclassMethod)) (generate_peer_constructor : bool)
    : option RsCodegenResult :=
  let super_name := qn_name superclass in
  let super_path := to_type_path ext superclass in
  let super_cxxbridge_id := qn_name superclass in
  let id := sub_id ext sub in
  let holder := sub_holder ext sub in
  let full_cpp := sub_cpp ext sub in
  let cpp_path := to_type_path ext full_cpp in
  let cpp_id := qn_name full_cpp in
  let relinquish_ownership_call := sub_cpp_remove_ownership ext sub in
  let rust_ty := "super::super::super::" +s+ id in
  let bindgen_mod_items :=
    [IUse ["cxxbridge"; cpp_id] None;
     IStruct (ItemStruct_ None holder
                [("0", "autocxx::subclass::CppSubclassRustPeerHolder<" +s+ rust_ty +s+ ">")]);
     IImpl (Some "autocxx::subclass::CppSubclassCppPeer") cpp_id
       [FnDef_ None false "relinquish_ownership" [FnArgReceiver Const] ""
          (Some (BExpr (EMethodCall (EId "self") relinquish_ownership_call [])))]] in
  let extern_c_mod_items :=
    [generate_cxxbridge_type full_cpp false None;
     FFn (FnDef_ None false relinquish_ownership_call
            [FnArgTyped (PatIdent "self") ("&" +s+ cpp_id)] "" None)] in
  methods_items ←
    match methods with
    | Some methods =>
        let supers := to_type_path ext (get_supers_trait_name ext superclass) in
        methods_impls ← mapM subclass_super_impl_item methods;
        Some [IImpl (Some supers) rust_ty methods_impls]
    | None => Some []
    end;
  let peer_items :=
    if generate_peer_constructor then
      [IImpl (Some ("autocxx::subclass::CppPeerConstructor<" +s+ cpp_id +s+ ">")) rust_ty
         [FnDef_ None false "make_peer"
            [FnArgReceiver Mutable;
             FnArgTyped (PatIdent "peer_holder") "autocxx::subclass::CppSubclassRustPeerHolder<Self>"]
            ("cxx::UniquePtr<" +s+ cpp_path +s+ ">")
            (Some (BExpr (ECall [cpp_id; "make_unique"] [EId "peer_holder"])))]]
    else [] in
  let as_id := "As_" +s+ super_name in
  let as_mut_id := "As_" +s+ super_name +s+ "_mut" in
  let extern_c_mod_items := extern_c_mod_items ++
    [FFn (FnDef_ None false as_id [FnArgTyped (PatIdent "self") ("&" +s+ cpp_id)]
            ("&" +s+ super_cxxbridge_id) None);
     FFn (FnDef_ None false as_mut_id [FnArgTyped (PatIdent "self") ("Pin<&mut " +s+ cpp_id +s+ ">")]
            ("Pin<&mut " +s+ super_cxxbridge_id +s+ ">") None)] in
  let bindgen_mod_items := bindgen_mod_items ++ methods_items ++ peer_items ++
    [IImpl (Some ("AsRef<" +s+ super_path +s+ ">")) rust_ty
       [FnDef_ None false "as_ref" [FnArgReceiver Const] ("&cxxbridge::" +s+ super_cxxbridge_id)
          (Some (BExpr (EMethodCall (EMethodCall (EId "self") "peer" []) as_id [])))];
     IImpl None rust_ty
       [FnDef_ None false "pin_mut" [FnArgReceiver Mutable]
          ("std::pin::Pin<&mut cxxbridge::" +s+ super_cxxbridge_id +s+ ">")
          (Some (BExpr (EMethodCall (EMethodCall (EId "self") "peer_mut" []) as_mut_id [])))]] in
  let remove_ownership := sub_remove_ownership ext sub in
  let global_items :=
    [IUse ["bindgen"; "root"; holder] None;
     IFn (FnDef_ None false remove_ownership
            [FnArgTyped (PatIdent "me") ("Box<" +s+ holder +s+ ">")] ("Box<" +s+ holder +s+ ">")
            (Some (BExpr (ECall ["Box"; "new"]
                            [ECall [holder] [EMethodCall (EId "me.0") "relinquish_ownership" []]]))))] in
  Some {| extern_c_mod_items := extern_c_mod_items;
          bridge_items := create_impl_items ext cpp_id (config self);
          bindgen_mod_items := bindgen_mod_items;
          materializations := [Custom (IUse ["cxxbridge"; cpp_id] None)];
          global_items := global_items;
          impl_entry := None;
          extern_rust_mod_items :=
            [FType None None None holder None;
             FFn (FnDef_ None false remove_ownership
                    [FnArgTyped (PatIdent "me") ("Box<" +s+ holder +s+ ">")]
                    ("Box<" +s+ holder +s+ ">") None)] |}.

(** [generate_rs_for_api]. *)
Definition generate_rs_for_api (api : Api)
    (associated_methods : gmap QualifiedName (list SuperclassMethod))
    (subclasses_with_a_single_trivial_constructor : gset QualifiedName)
    : option RsCodegenResult :=
  let name := api_name api in
  let id := qn_name name in
  let cpp_call_name := effective_cpp_name ext api in
  match api with
  | ApiStringConstructor _ =>
      let make_string_name := makestring_name (config self) in
      Some {| extern_c_mod_items :=
                [FFn (FnDef_ None false make_string_name [FnArgTyped (PatIdent "str_") "&str"]
                        "UniquePtr<CxxString>" None)];
              bridge_items := [];
              global_items := get_string_items;
              bindgen_mod_items := [];
              impl_entry := None;
              materializations := [UsedFromCxxBridgeWithAlias "make_string"];
              extern_rust_mod_items := [] |}
  | ApiFunction _ fun_ analysis => Some (gen_function ext (qn_ns name) fun_ analysis cpp_call_name)
  | ApiConst _ const_value =>
      Some {| global_items := []; impl_entry := None; bridge_items := [];
              extern_c_mod_items := []; bindgen_mod_items := [IConst id const_value];
              materializations := [UsedFromBindgen]; extern_rust_mod_items := [] |}
  | ApiTypedef _ kind =>
      Some {| extern_c_mod_items := []; bridge_items := []; global_items := [];
              bindgen_mod_items :=
                [match kind with
                 | TypedefType n target => ITypeAlias n target
                 | TypedefUse path => IUse path None
                 end];
              impl_entry := None; materializations := [UsedFromBindgen];
              extern_rust_mod_items := [] |}
  | ApiStruct _ item kind =>
      generate_type name id kind (Some (IStruct item, st_doc item)) associated_methods
  | ApiEnum _ item =>
      generate_type name id Pod (Some (IEnum item, en_doc item)) associated_methods
  | ApiForwardDeclaration _ | ApiConcreteType _ =>
      generate_type name id Abstract None associated_methods
  | ApiCType _ =>
      Some {| global_items := []; impl_entry := None; bridge_items := [];
              extern_c_mod_items := [FVerbatim ("type " +s+ id +s+ " = autocxx::" +s+ id +s+ ";")];
              bindgen_mod_items := []; materializations := []; extern_rust_mod_items := [] |}
  | ApiRustType _ path =>
      Some {| extern_c_mod_items := []; bridge_items := []; bindgen_mod_items := [];
              materializations := []; global_items := [IUse ("super" :: path) None];
              impl_entry := None; extern_rust_mod_items := [FType None None None id None] |}
  | ApiRustFn _ sig path =>
      Some {| extern_c_mod_items := []; bridge_items := []; bindgen_mod_items := [];
              materializations := []; global_items := [IUse ("super" :: path) None];
              impl_entry := None; extern_rust_mod_items := [FFn sig] |}
  | ApiRustSubclassFn _ subclass details => Some (generate_subclass_fn id details subclass)
  | ApiSubclass sub superclass =>
      let methods := associated_methods !! superclass in
      let generate_peer_constructor :=
        bool_decide (sub_name sub ∈ subclasses_with_a_single_trivial_constructor) in
      generate_subclass sub superclass methods generate_peer_constructor
  | ApiRustSubclassConstructor _ _ _ => Some empty_result
  | ApiIgnoredItem _ err ctx => Some (generate_error_entry err ctx)
  end.

End Codegen.

(** ** The namespace tree *)

(** Modelled from the spec: [namespace_organizer::NamespaceEntries]
    (§3, §4.2), a node with the entries that belong exactly at its level,
    in input order, and one child per namespace segment.  The builder
    walks the input once and appends each entry below its namespace path,
    creating the nodes on the way; children are kept in the order their
    segment is first met. *)
Inductive NamespaceEntries (A : Type) : Type :=
| NSE (entries : list A) (children : list (string * NamespaceEntries A)).
Arguments NSE {A} _ _.

Definition nse_entries {A} (t : NamespaceEntries A) : list A :=
  match t with NSE es _ => es end.
Definition nse_children {A} (t : NamespaceEntries A) : list (string * NamespaceEntries A) :=
  match t with NSE _ ch => ch end.

Fixpoint insert_at {A} (path : list string) (x : A) (t : NamespaceEntries A)
    {struct path} : NamespaceEntries A :=
  match path with
  | [] => NSE (nse_entries t ++ [x]) (nse_children t)
  | seg :: rest =>
      NSE (nse_entries t)
        ((fix go (ch : list (string * NamespaceEntries A)) :=
            match ch with
            | [] => [(seg, insert_at rest x (NSE [] []))]
            | (s, c) :: ch' =>
                if String.eqb s seg then (s, insert_at rest x c) :: ch' else (s, c) :: go ch'
            end) (nse_children t))
  end.

Definition nse_new {A} (get_namespace : A -> list string) (items : list A) : NamespaceEntries A :=
  foldl (fun t x => insert_at (get_namespace x) x t) (NSE [] []) items.

(** [NamespaceEntries::is_empty]: no entry here nor below. *)
Fixpoint is_empty {A} (t : NamespaceEntries A) : bool :=
  match t with
  | NSE es ch =>
      bool_decide (es = []) &&
      (fix go (ch : list (string * NamespaceEntries A)) :=
         match ch with
         | [] => true
         | (_, c) :: ch' => is_empty c && go ch'
         end) ch
  end.

(** [HasNs for (QualifiedName, RsCodegenResult)]. *)
Definition entry_ns (e : QualifiedName * RsCodegenResult) : list string := qn_ns e.1.

(** The order in which a [std::collections::HashMap] hands out its keys.
    It is fixed by the [RandomState] the map was created with, which is
    seeded afresh in every process: any permutation of the keys. *)
Definition IterOrder := list Ident -> list Ident.

Definition valid_iter_order (ord : IterOrder) : Prop :=
  forall l : list Ident, ord l ≡ₚ l.

Section Assembly.
Context (ext : Externals) (self : RsCodeGenerator).

(** [find_output_mod_root]: [depth] times [super]. *)
Definition find_output_mod_root (ns : list string) : list Ident :=
  repeat "super" (length ns).

Definition generate_cxx_use_stmt (name : QualifiedName) (alias : option Ident) : Item :=
  IUse (find_output_mod_root (qn_ns name) ++ ["cxxbridge"; qn_name name]) alias.

Definition generate_bindgen_use_stmt (name : QualifiedName) : Item :=
  IUse (find_output_mod_root (qn_ns name) ++ get_bindgen_path_idents ext name) None.

(** The [use] statement (or custom item) for one materialization. *)
Definition materialize (name : QualifiedName) (m : Use) : Item :=
  match m with
  | UsedFromCxxBridgeWithAlias alias => generate_cxx_use_stmt name (Some alias)
  | UsedFromCxxBridge => generate_cxx_use_stmt name None
  | UsedFromBindgen => generate_bindgen_use_stmt name
  | SpecificNameFromBindgen id => generate_bindgen_use_stmt (QN (qn_ns name) id)
  | Custom item => item
  end.

Definition use_items_of_entry (e : QualifiedName * RsCodegenResult) : list Item :=
  map (materialize e.1) (materializations e.2).

Fixpoint append_child_use_namespace (t : NamespaceEntries (QualifiedName * RsCodegenResult))
    : list Item :=
  match t with
  | NSE es ch =>
      flat_map use_items_of_entry es ++
      (fix go (ch : list (string * NamespaceEntries (QualifiedName * RsCodegenResult))) :=
         match ch with
         | [] => []
         | (child_name, c) :: ch' =>
             (if is_empty c then [] else [IMod child_name (append_child_use_namespace c)])
             ++ go ch'
         end) ch
  end.

Definition generate_final_use_statements (input_items : list (QualifiedName * RsCodegenResult))
    : list Item :=
  append_child_use_namespace (nse_new entry_ns input_items).

Definition append_uses_for_ns (ns : list string) : list Item :=
  [IUse ("self" :: repeat "super" (length ns + 2) ++ ["cxxbridge"]) None] ++
  (if exclude_utilities (config self) then []
   else [IUse ("self" :: repeat "super" (length ns + 2) ++ ["ToCppString"]) None]) ++
  [IUse ("self" :: repeat "super" (length ns + 1) ++ ["root"]) None].

(** [impl_entries_by_type]: [entry(ty).or_default().push(item)]. *)
Definition push_impl_entry (m : gmap Ident (list FnDef)) (e : QualifiedName * RsCodegenResult)
    : gmap Ident (list FnDef) :=
  match impl_entry e.2 with
  | Some ie => <[ibd_ty ie := from_option id [] (m !! ibd_ty ie) ++ [ibd_item ie]]> m
  | None => m
  end.

Definition impl_entries_by_type (es : list (QualifiedName * RsCodegenResult))
    : gmap Ident (list FnDef) :=
  foldl push_impl_entry ∅ es.

(** [for (ty, entries) in impl_entries_by_type.into_iter()]. *)
Definition merged_impls (ord : IterOrder) (m : gmap Ident (list FnDef)) : list Item :=
  map (fun ty => IImpl None ty (m !!! ty)) (ord (map fst (map_to_list m))).

Fixpoint append_child_bindgen_namespace (ord : IterOrder)
    (t : NamespaceEntries (QualifiedName * RsCodegenResult)) (ns : list string) : list Item :=
  match t with
  | NSE es ch =>
      flat_map (fun e => bindgen_mod_items e.2) es ++
      merged_impls ord (impl_entries_by_type es) ++
      (fix go (ch : list (string * NamespaceEntries (QualifiedName * RsCodegenResult))) :=
         match ch with
         | [] => []
         | (child_name, c) :: ch' =>
             let new_ns := ns ++ [child_name] in
             let inner_output_items := append_child_bindgen_namespace ord c new_ns in
             (match inner_output_items with
              | [] => []
              | _ => [IMod child_name (inner_output_items ++ append_uses_for_ns new_ns)]
              end) ++ go ch'
         end) ch
  end.

Definition generate_final_bindgen_mods (ord : IterOrder)
    (input_items : list (QualifiedName * RsCodegenResult)) : list Item :=
  append_child_bindgen_namespace ord (nse_new entry_ns input_items) [] ++ append_uses_for_ns [].

Definition build_include_foreign_items (has_additional_cpp_needs : bool) : list ForeignItem :=
  let extra_inclusion :=
    if has_additional_cpp_needs then ["autocxxgen_" +s+ mod_name (config self) +s+ ".h"] else [] in
  map FInclude (include_list self ++ extra_inclusion).

(** The per-API step of [rs_codegen]: name, bundle and whether more C++
    is needed. *)
Definition codegen_one (methods_by_superclass : gmap QualifiedName (list SuperclassMethod))
    (subclasses : gset QualifiedName) (api : Api)
    : option ((QualifiedName * RsCodegenResult) * bool) :=
  gen ← generate_rs_for_api ext self api methods_by_superclass subclasses;
  Some ((api_name api, gen), needs_cpp_codegen ext api).

(** [rs_codegen]; [bindgen_mod_name] is the name of the [ItemMod] bindgen
    produced, [ord] the iteration order of the process's [HashMap]s. *)
Definition rs_codegen (ord : IterOrder) (bindgen_mod_name : Ident) (all_apis : list Api)
    : option (list Item) :=
  let methods_by_superclass := accumulate_superclass_methods self all_apis in
  let subclasses_with_a_single_trivial_constructor :=
    find_trivially_constructed_subclasses all_apis in
  results ← mapM (codegen_one methods_by_superclass subclasses_with_a_single_trivial_constructor)
                 all_apis;
  let rs_codegen_results_and_namespaces := map fst results in
  let additional_cpp_needs := map snd results in
  let use_statements := generate_final_use_statements rs_codegen_results_and_namespaces in
  let bindgen_root_items := generate_final_bindgen_mods ord rs_codegen_results_and_namespaces in
  let rs_codegen_results := map snd rs_codegen_results_and_namespaces in
  let bridge_items := concat (map bridge_items rs_codegen_results) in
  let extern_c_mod_items :=
    concat (map extern_c_mod_items rs_codegen_results) ++
    build_include_foreign_items (existsb (fun b => b) additional_cpp_needs) in
  let extern_rust_mod_items := concat (map extern_rust_mod_items rs_codegen_results) in
  let all_items := concat (map global_items rs_codegen_results) in
  let bridge_items := bridge_items ++ [IForeignMod true "C++" extern_c_mod_items;
                                       IForeignMod false "Rust" extern_rust_mod_items] in
  let all_items :=
    match bindgen_root_items with
    | [] => all_items
    | _ => all_items ++ [IMod bindgen_mod_name [IMod "root" bindgen_root_items]]
    end in
  Some (all_items ++ [IMod "cxxbridge" bridge_items; IUse ["bindgen"; "root"] None]
        ++ use_statements).

End Assembly.

(** [RsCodeGenerator::generate_rs_code]. *)
Definition generate_rs_code (ext : Externals) (ord : IterOrder) (all_apis : list Api)
    (include_list : list string) (bindgen_mod_name : Ident) (config : IncludeCppConfig)
    : option (list Item) :=
  let c := {| include_list := include_list;
              original_name_map := original_name_map_from_apis ext all_apis;
              config := config |} in
  rs_codegen ext c ord bindgen_mod_name all_apis.

(** * Definitions used by the properties *)

(** ** Trivially constructed subclasses *)

(** The declared constructors of subclass [q] with the given triviality. *)
Definition has_constructor (apis : list Api) (q : QualifiedName) (trivial : bool) : Prop :=
  exists n s, ApiRustSubclassConstructor n s trivial ∈ apis /\ sub_name s = q.

(** A subclass named [q] with one constructor per flag. *)
Definition constructors_of (q : QualifiedName) (flags : list bool) : list Api :=
  map (fun b => ApiRustSubclassConstructor q (SubclassName_ q) b) flags.

(** ** Superclass method accumulation *)

(** The record a [Function] item contributes to the list of superclass
    [q], if any. *)
Definition virtual_method_on (q : QualifiedName) (api : Api) : option SuperclassMethod :=
  match api with
  | ApiFunction name _ analysis =>
      match virtual_receiver analysis with
      | Some (receiver, rm) =>
          if decide (receiver = q) then Some (superclass_method_of name analysis rm) else None
      | None => None
      end
  | _ => None
  end.

(** ** A concrete instance of the collaborators *)

(** Names of Rust built-in types, for [conflicts_with_built_in_type]. *)
Definition builtin_type_names : list string :=
  ["u8"; "u16"; "u32"; "u64"; "i8"; "i16"; "i32"; "i64"; "usize"; "isize";
   "f32"; "f64"; "bool"; "char"; "str"].

Definition example_ext : Externals :=
  {| gen_function := fun _ _ _ _ => empty_result;
     create_impl_items := fun id _ => [IImpl None ("UniquePtr<" +s+ id +s+ ">") []];
     make_non_pod := fun s => s;
     new_non_pod_struct := fun id => ItemStruct_ None id [];
     conflicts_with_built_in_type := fun q =>
       bool_decide (qn_ns q = []) && existsb (String.eqb (qn_name q)) builtin_type_names;
     effective_cpp_name := fun api => to_cpp_name (api_name api);
     sub_id := fun s => qn_name (sub_name s);
     sub_holder := fun s => qn_name (sub_name s) +s+ "Holder";
     sub_cpp := fun s => QN (qn_ns (sub_name s)) (qn_name (sub_name s) +s+ "Cpp");
     sub_cpp_remove_ownership := fun s => qn_name (sub_name s) +s+ "Cpp_remove_ownership";
     sub_remove_ownership := fun s => qn_name (sub_name s) +s+ "_remove_ownership";
     get_supers_trait_name := fun q => QN (qn_ns q) (qn_name q +s+ "_supers");
     get_methods_trait_name := fun q => QN (qn_ns q) (qn_name q +s+ "_methods");
     to_type_path := to_cpp_name;
     get_bindgen_path_idents := fun q => ["bindgen"; "root"] ++ qn_ns q ++ [qn_name q];
     unqualify_type := fun t => t;
     unqualify_ret_type := fun t => t;
     needs_cpp_codegen := fun _ => false;
     original_name_map_from_apis := fun _ => ∅ |}.

Definition example_config : IncludeCppConfig :=
  {| superclasses := []; exclude_utilities := false;
     makestring_name := "autocxx_make_string_0x1234"; mod_name := "ffi" |}.

Definition example_generator : RsCodeGenerator :=
  {| include_list := ["input.h"]; original_name_map := ∅; config := example_config |}.

(** ** The string constructor *)

(** Whether an expression calls the function [f]. *)
Fixpoint expr_calls (f : Ident) (e : Expr) : bool :=
  match e with
  | EId _ | EPat _ => false
  | ERef e => expr_calls f e
  | ECall g args =>
      bool_decide (g = [f]) ||
      (fix go (args : list Expr) := match args with
                                   | [] => false
                                   | a :: args' => expr_calls f a || go args'
                                   end) args
  | EMethodCall recv _ args =>
      expr_calls f recv ||
      (fix go (args : list Expr) := match args with
                                   | [] => false
                                   | a :: args' => expr_calls f a || go args'
                                   end) args
  end.

Definition fn_calls (f : Ident) (d : FnDef) : bool :=
  match fn_body d with
  | Some (BExpr e) => expr_calls f e
  | _ => false
  end.

(** The four [ToCppString] impls all call [f]. *)
Definition string_impls_call (f : Ident) (items : list Item) : Prop :=
  forall ty, ty ∈ ["&str"; "String"; "&String"; "cxx::UniquePtr<cxx::CxxString>"] ->
  exists fs, IImpl (Some "ToCppString") ty fs ∈ items /\ Forall (fun d => fn_calls f d = true) fs.

(** ** Error entries *)

(** The bundle with only the given impl entry and materializations. *)
Definition error_bundle (ie : option ImplBlockDetails) (ms : list Use) : RsCodegenResult :=
  {| global_items := []; impl_entry := ie; bridge_items := []; extern_c_mod_items := [];
     bindgen_mod_items := []; materializations := ms; extern_rust_mod_items := [] |}.

(** ** Record types *)

(** A record type [name] that is a configured superclass. *)
Definition base_struct : ItemStruct := ItemStruct_ None "Base" [].

Definition base_generator : RsCodeGenerator :=
  {| include_list := ["input.h"]; original_name_map := ∅;
     config := {| superclasses := ["Base"]; exclude_utilities := false;
                  makestring_name := "autocxx_make_string_0x1234"; mod_name := "ffi" |} |}.

Definition base_apis : list Api := [ApiStruct (QN [] "Base") base_struct NonPod].

(** Whether an item is a [use] re-export. *)
Definition is_reexport (i : Item) : Prop := exists path alias, i = IUse path alias.

(** ** What a subclass forwarding function does when it runs *)

(** The state of the [RefCell] that holds the Rust subclass object. *)
Inductive BorrowState := Unborrowed | SharedBorrows (n : nat) | MutBorrowed.

(** What a run of a forwarding body is seen to do. *)
Inductive Event :=
| EvPanic (msg : string)
| EvBorrowAttempt (borrow : Ident)
| EvCall (methods_trait : string) (method : Ident) (args : list Expr)
| EvUnbound.

(** [RefCell::try_borrow] fails only on a cell borrowed mutably,
    [RefCell::try_borrow_mut] on a cell borrowed in any way. *)
Definition try_borrow_ok (borrow : Ident) (st : BorrowState) : bool :=
  if String.eqb borrow "try_borrow_mut" then
    match st with Unborrowed => true | _ => false end
  else
    match st with MutBorrowed => false | _ => true end.

(** A run of the statements of a forwarding body.  [backref] is what
    [me.0.get()] gives: [None] once the subclass object is gone, else the
    state of its cell; [rc] is the cell once bound by the first statement.
    [expect] on [None] or [Err] panics with its message. *)
Fixpoint run_stmts (backref : option BorrowState) (rc : option BorrowState) (ss : list Stmt)
    : list Event :=
  match ss with
  | [] => []
  | SLetBackRef msg :: ss' =>
      match backref with
      | None => [EvPanic msg]
      | Some st => run_stmts backref (Some st) ss'
      end
  | SLetBorrow _ borrow msg :: ss' =>
      match rc with
      | None => [EvUnbound]
      | Some st =>
          EvBorrowAttempt borrow ::
          (if try_borrow_ok borrow st then run_stmts backref rc ss' else [EvPanic msg])
      end
  | SLetDeref _ _ _ :: ss' => run_stmts backref rc ss'
  | SCallMethodsTrait t m args :: ss' => EvCall t m (EId "r" :: args) :: run_stmts backref rc ss'
  end.

Definition run_body (backref : option BorrowState) (b : option Body) : list Event :=
  match b with
  | Some (BStmts ss) => run_stmts backref None ss
  | _ => []
  end.

(** The borrow a receiver of the given mutability needs is held already. *)
Definition borrow_held (rm : ReceiverMutability) (st : BorrowState) : bool :=
  match rm, st with
  | Mutable, Unborrowed => false
  | Mutable, _ => true
  | Const, MutBorrowed => true
  | Const, _ => false
  end.

Definition borrow_name (rm : ReceiverMutability) : Ident :=
  match rm with Const => "try_borrow" | Mutable => "try_borrow_mut" end.

(** ** The namespace tree and its two renderings *)

(** [q] without the leading [p], if [p] is a prefix of [q]. *)
Fixpoint strip_prefix (p q : list string) : option (list string) :=
  match p, q with
  | [], _ => Some q
  | s :: p', s' :: q' => if String.eqb s s' then strip_prefix p' q' else None
  | _ :: _, [] => None
  end.

(** The entries below path [p], with their paths relative to [p]. *)
Definition strip_path {A} (p : list string) (l : list (list string * A)) : list (list string * A) :=
  omap (fun pe => r ← strip_prefix p pe.1; Some (r, pe.2)) l.

Fixpoint child_lookup {A} (seg : string) (ch : list (string * NamespaceEntries A))
    : option (NamespaceEntries A) :=
  match ch with
  | [] => None
  | (s, c) :: ch' => if String.eqb s seg then Some c else child_lookup seg ch'
  end.

(** The node of a tree at a namespace path. *)
Fixpoint nse_lookup {A} (p : list string) (t : NamespaceEntries A) : option (NamespaceEntries A) :=
  match p with
  | [] => Some t
  | s :: p' =>
      match child_lookup s (nse_children t) with
      | Some c => nse_lookup p' c
      | None => None
      end
  end.

(** The child list of [insert_at (seg :: rest)]. *)
Fixpoint insert_child {A} (seg : string) (f : NamespaceEntries A -> NamespaceEntries A)
    (ch : list (string * NamespaceEntries A)) : list (string * NamespaceEntries A) :=
  match ch with
  | [] => [(seg, f (NSE [] []))]
  | (s, c) :: ch' => if String.eqb s seg then (s, f c) :: ch' else (s, c) :: insert_child seg f ch'
  end.

(** A tree holds the entries [l], given with their paths: its own entries
    are those of path [[]] in order, its children have distinct names and
    there is one for every segment that starts the path of an entry,
    holding the entries below it. *)
Inductive nse_inv {A} : NamespaceEntries A -> list (list string * A) -> Prop :=
| nse_inv_node (es : list A) (ch : list (string * NamespaceEntries A)) (l : list (list string * A)) :
    es = map snd (filter (fun pe => pe.1 = []) l) ->
    NoDup (map fst ch) ->
    (forall s c, (s, c) ∈ ch -> strip_path [s] l <> []) ->
    (forall s c, (s, c) ∈ ch -> nse_inv c (strip_path [s] l)) ->
    (forall s, s ∉ map fst ch -> strip_path [s] l = []) ->
    nse_inv (NSE es ch) l.

(** The impl entries of a list of bundles, in order. *)
Definition impl_entries_of (es : list (QualifiedName * RsCodegenResult)) : list ImplBlockDetails :=
  omap (fun e => impl_entry e.2) es.

(** The items of the impl entries for [ty], in order. *)
Definition impl_items_for (ty : Ident) (ies : list ImplBlockDetails) : list FnDef :=
  map ibd_item (filter (fun ie => ibd_ty ie = ty) ies).

(** An entry of the root namespace with a failed method [f] of [A], and
    one with a constant [C]. *)
Definition failed_method_fn : FnDef := FnDef_ None false "f" [] "" (Some (BStmts [])).

Definition root_entries : list (QualifiedName * RsCodegenResult) :=
  [(QN [] "A_f", error_bundle (Some (ImplBlockDetails_ failed_method_fn "A")) []);
   (QN [] "C", {| extern_c_mod_items := []; extern_rust_mod_items := []; bridge_items := [];
                  global_items := []; bindgen_mod_items := [IConst "C" "1"];
                  impl_entry := None; materializations := [] |})].

(** The bindgen items that come from an entry: its own items and the
    merged impl block that holds its impl entry. *)
Definition contributes (e : QualifiedName * RsCodegenResult) (x : Item) : Prop :=
  x ∈ bindgen_mod_items e.2 \/
  exists ie fs, impl_entry e.2 = Some ie /\ x = IImpl None (ibd_ty ie) fs /\ ibd_item ie ∈ fs.

(** ** Reproducibility *)

(** Two failed methods, of [A] and of [B], in the root namespace. *)
Definition two_failed_methods : list Api :=
  [ApiIgnoredItem (QN [] "A_f") "unsupported" (ECMethod "A" "f");
   ApiIgnoredItem (QN [] "B_g") "unsupported" (ECMethod "B" "g")].

(** ** Which APIs can panic, and the assembled output *)

(** The name whose superclass methods [generate_rs_for_api] turns into
    trait items: the record's own name for a type, the superclass for a
    subclass. *)
Definition superclass_key (api : Api) : option QualifiedName :=
  match api with
  | ApiStruct n _ _ | ApiEnum n _ | ApiForwardDeclaration n | ApiConcreteType n => Some n
  | ApiSubclass _ superclass => Some superclass
  | _ => None
  end.

(** ** Every entry reaches its namespace module *)

(** [p] names a chain of nested modules of [out], one segment at a time,
    the innermost of which has items satisfying [P]. *)
Fixpoint at_mod_path (p : list string) (out : list Item) (P : list Item -> Prop) : Prop :=
  match p with
  | [] => P out
  | s :: p' => exists inner, IMod s inner ∈ out /\ at_mod_path p' inner P
  end.

(** What the bindgen rendering must show of an entry: its bindgen items,
    and a merged impl block of the type of its impl entry holding its
    item. *)
Definition shows_bindgen (e : QualifiedName * RsCodegenResult) (out : list Item) : Prop :=
  (forall x, x ∈ bindgen_mod_items e.2 -> x ∈ out) /\
  (forall ie, impl_entry e.2 = Some ie ->
     exists fs, IImpl None (ibd_ty ie) fs ∈ out /\ ibd_item ie ∈ fs).

(** ** Where the relative paths of the output lead *)

(** Rust's resolution of a [use] path, or of a type path, written in the
    module at absolute path [m]: each leading [super] goes to the parent
    module, the rest is looked up from the module reached (the generated
    paths start with [self], [super] or a module that exists there). *)
Fixpoint resolve_supers (m : list string) (p : list string) : list string :=
  match p with
  | s :: p' => if String.eqb s "super" then resolve_supers (removelast m) p' else m ++ p
  | [] => m
  end.

Definition resolve (m : list string) (p : list string) : list string :=
  match p with
  | s :: p' => if String.eqb s "self" then resolve_supers m p' else resolve_supers m p
  | [] => m
  end.

(** The absolute path a [use] item written in module [m] imports. *)
Definition use_target (m : list string) (i : Item) : option (list string) :=
  match i with
  | IUse path _ => Some (resolve m path)
  | _ => None
  end.

(** The absolute path a bridge type declared in module [m] refers to. *)
Definition type_target (m : list string) (f : ForeignItem) : option (list string) :=
  match f with
  | FType _ _ _ _ (Some path) => Some (resolve m path)
  | _ => None
  end.

(** ** The peer constructor of a subclass *)



(** ** Which modules the renderings emit *)

Definition is_mod (i : Item) : Prop := exists s m, i = IMod s m.

(** [inner] is the item list of the chain of nested modules [p] of [out]. *)
Fixpoint in_mod_path (p : list string) (out : list Item) (inner : list Item) : Prop :=
  match p with
  | [] => inner = out
  | s :: p' => exists m, IMod s m ∈ out /\ in_mod_path p' m inner
  end.

(** No item of the list is a module. *)
Definition has_no_mod (l : list Item) : bool :=
  forallb (fun x => match x with IMod _ _ => false | _ => true end) l.

(** A constant [C] of namespace [a]. *)
Definition nested_entries : list (QualifiedName * RsCodegenResult) :=
  [(QN ["a"] "C", {| extern_c_mod_items := []; extern_rust_mod_items := []; bridge_items := [];
                     global_items := []; bindgen_mod_items := [IConst "C" "1"];
                     impl_entry := None; materializations := [UsedFromBindgen] |})].

(** * Properties *)

(** ** Trivially constructed subclasses *)

Lemma constructor_of_elem (apis : list Api) (q : QualifiedName) (b : bool) :
  (q, b) ∈ omap constructor_of apis <-> has_constructor apis q b.
Proof.
  rewrite list_elem_of_omap. split.
  - intros [api [Hin Heq]]. destruct api; simpl in Heq; try discriminate.
    injection Heq as <- <-. unfold has_constructor. eauto.
  - intros (n & s & Hin & <-). eexists. split; [exact Hin | reflexivity].
Qed.

Lemma partition_fst_elem (l : list (QualifiedName * bool)) (q : QualifiedName) (b : bool) :
  q ∈ map fst (if b then (List.partition (fun p => p.2) l).1
               else (List.partition (fun p => p.2) l).2) <-> (q, b) ∈ l.
Proof.
  rewrite partition_as_filter.
  assert (Hf : (if b then (List.filter (fun p : QualifiedName * bool => p.2) l,
                           List.filter (fun p => negb p.2) l).1
                else (List.filter (fun p : QualifiedName * bool => p.2) l,
                      List.filter (fun p => negb p.2) l).2)
               = List.filter (fun p : QualifiedName * bool => Bool.eqb p.2 b) l).
  { destruct b; simpl; apply filter_ext; intros [? []]; reflexivity. }
  rewrite Hf. clear Hf.
  rewrite list_elem_of_fmap. split.
  - intros [[q' b'] [-> Hin]]. simpl.
    apply list_elem_of_In in Hin. apply filter_In in Hin as [Hin Hb].
    apply list_elem_of_In. destruct b, b'; simpl in Hb; congruence.
  - intros Hin. exists (q, b). split; [done |].
    apply list_elem_of_In. apply filter_In. split; [by apply list_elem_of_In |].
    destruct b; reflexivity.
Qed.

(** C2: the result is exactly the names with a trivial constructor and
    no non-trivial one; in particular a subclass with constructors
    {trivial, trivial} is eligible, and {trivial, non-trivial},
    {non-trivial} and {} are not. *)
Theorem find_trivially_constructed_subclasses_correct :
  (forall (apis : list Api) (q : QualifiedName),
     q ∈ find_trivially_constructed_subclasses apis <->
     has_constructor apis q true /\ ~ has_constructor apis q false) /\
  (forall q : QualifiedName,
     q ∈ find_trivially_constructed_subclasses (constructors_of q [true; true]) /\
     (q ∉ find_trivially_constructed_subclasses (constructors_of q [true; false])) /\
     (q ∉ find_trivially_constructed_subclasses (constructors_of q [false])) /\
     (q ∉ find_trivially_constructed_subclasses (constructors_of q []))).
Proof.
  assert (Hchar : forall (apis : list Api) (q : QualifiedName),
     q ∈ find_trivially_constructed_subclasses apis <->
     has_constructor apis q true /\ ~ has_constructor apis q false).
  { intros apis q. unfold find_trivially_constructed_subclasses.
    pose proof (partition_fst_elem (omap constructor_of apis) q true) as Ht.
    pose proof (partition_fst_elem (omap constructor_of apis) q false) as Hc.
    destruct (List.partition _ _) as [simple complex]. simpl in Ht, Hc.
    rewrite elem_of_difference, !elem_of_list_to_set, Ht, Hc, !constructor_of_elem.
    tauto. }
  split; [exact Hchar |].
  intros q. rewrite !Hchar. unfold has_constructor, constructors_of. simpl.
  split; [| split; [| split]].
  - split.
    + exists q, (SubclassName_ q). split; [left | reflexivity].
    + intros (n & s & Hin & _). set_solver.
  - intros [_ Hn]. apply Hn. exists q, (SubclassName_ q). split; [right; left | reflexivity].
  - intros [_ Hn]. apply Hn. exists q, (SubclassName_ q). split; [left | reflexivity].
  - intros [(n & s & Hin & _) _]. set_solver.
Qed.

(** ** Superclass method accumulation *)

Lemma accumulate_step_lookup (results : gmap QualifiedName (list SuperclassMethod))
    (api : Api) (q : QualifiedName) :
  accumulate_step results api !! q =
  (fun l => l ++ omap (virtual_method_on q) [api]) <$> results !! q.
Proof.
  destruct api as [| name f analysis | | | | | | | | | | | | |]; simpl;
    try (destruct (results !! q); simpl; by rewrite ?app_nil_r).
  destruct (virtual_receiver analysis) as [[receiver rm] |]; simpl;
    [| destruct (results !! q); simpl; by rewrite ?app_nil_r].
  destruct (results !! receiver) as [l |] eqn:Hr.
  - rewrite lookup_insert. destruct (decide (receiver = q)) as [<- | Hq].
    + by rewrite Hr.
    + destruct (results !! q); simpl; by rewrite ?app_nil_r.
  - destruct (decide (receiver = q)) as [<- | Hq].
    + by rewrite Hr.
    + destruct (results !! q); simpl; by rewrite ?app_nil_r.
Qed.

Lemma accumulate_fold_lookup (apis : list Api)
    (results : gmap QualifiedName (list SuperclassMethod)) (q : QualifiedName) :
  foldl accumulate_step results apis !! q =
  (fun l => l ++ omap (virtual_method_on q) apis) <$> results !! q.
Proof.
  revert results. induction apis as [| api apis IH]; intros results; simpl.
  - destruct (results !! q); simpl; by rewrite ?app_nil_r.
  - rewrite IH, accumulate_step_lookup.
    destruct (results !! q); simpl; [| done].
    destruct (virtual_method_on q api); simpl; by rewrite <- app_assoc.
Qed.

Lemma superclasses_lookup (scs : list string) (q : QualifiedName) :
  (list_to_map (map (fun sc => (new_from_cpp_name sc, [])) scs)
     : gmap QualifiedName (list SuperclassMethod)) !! q =
  if decide (q ∈ map new_from_cpp_name scs) then Some [] else None.
Proof.
  induction scs as [| sc scs IH]; simpl.
  - apply lookup_empty.
  - rewrite lookup_insert, IH. repeat case_decide; set_solver.
Qed.

(** C3: the method list of a configured superclass [q] is, in input
    order, one record per virtual or pure virtual method whose receiver is
    [q]; no other name has a list.  A record keeps the parameter names in
    order and needs [unsafe] iff some parameter does.  Every forwarding
    call built from a record (the default body of the methods trait, the
    supers-trait impl of a subclass) and the forwarding function of a
    subclass method pass the parameters after the first only. *)
Theorem accumulate_superclass_methods_correct :
  (forall (self : RsCodeGenerator) (apis : list Api) (q : QualifiedName),
     accumulate_superclass_methods self apis !! q =
     if decide (q ∈ map new_from_cpp_name (superclasses (config self)))
     then Some (omap (virtual_method_on q) apis) else None) /\
  (forall (name : QualifiedName) (a : FnAnalysis) (rm : ReceiverMutability),
     sm_param_names (superclass_method_of name a rm) = map pd_name (fa_param_details a) /\
     (sm_requires_unsafe (superclass_method_of name a rm) = true <->
      exists pd, pd ∈ fa_param_details a /\ pd_requires_unsafe pd = true)) /\
  (forall (m : SuperclassMethod) (decl dflt : FnDef),
     superclass_trait_items m = Some (decl, dflt) ->
     fn_body dflt = Some (BExpr (EMethodCall (EId "self") (sm_name m +s+ "_super")
                                   (omap arg_expr (drop 1 (sm_params m)))))) /\
  (forall (m : SuperclassMethod) (f : FnDef),
     subclass_super_impl_item m = Some f ->
     exists peer_fn, fn_body f =
       Some (BExpr (EMethodCall (EMethodCall (EId "self") peer_fn []) (sm_name m +s+ "_super")
                      (map EPat (drop 1 (sm_param_names m)))))) /\
  (forall (ext : Externals) (api_name : Ident) (details : RustSubclassFnDetails)
          (subclass : SubclassName),
     exists pre f, global_items (generate_subclass_fn ext api_name details subclass) = [IFn f] /\
       fn_body f = Some (BStmts (pre ++ [SCallMethodsTrait
                                          (to_type_path ext (get_methods_trait_name ext (d_superclass details)))
                                          (d_method_name details)
                                          (omap arg_expr (drop 1 (d_params details)))]))).
Proof.
  split; [| split; [| split; [| split]]].
  - intros self apis q. unfold accumulate_superclass_methods.
    rewrite accumulate_fold_lookup, superclasses_lookup.
    by case_decide.
  - intros name a rm. simpl. split; [done |].
    rewrite existsb_exists. setoid_rewrite list_elem_of_In. done.
  - intros m decl dflt H. unfold superclass_trait_items in H.
    destruct (replace_first_param _ _); simpl in H; [| discriminate].
    injection H as _ <-. reflexivity.
  - intros m f H. unfold subclass_super_impl_item in H.
    destruct (sm_receiver_mutability m);
      (destruct (replace_first_param _ _); simpl in H; [| discriminate]);
      injection H as <-; eexists; reflexivity.
  - intros ext api_name details subclass. unfold generate_subclass_fn.
    destruct (borrow_kind _) as [[[dt dc] b] mt].
    do 2 eexists. split; [reflexivity |]. simpl.
    f_equal. f_equal.
    instantiate (1 := [_; _; _]). simpl. do 4 f_equal.
    unfold args_from_sig, unqualify_params. simpl.
    rewrite <- fmap_drop. unfold arg_expr.
    f_equal. induction (drop 1 (d_params details)) as [| a ps IH]; [done|]. destruct a as [| rm' | [id' |] ty']; simpl; first [exact IH | f_equal; exact IH].
Qed.

(** ** Panics of subclass emission *)

Lemma replace_first_param_None (params : list FnArg) (p : FnArg) :
  replace_first_param params p = None <-> params = [].
Proof. destruct params; simpl; split; congruence. Qed.

Lemma superclass_trait_items_None (m : SuperclassMethod) :
  superclass_trait_items m = None <-> sm_params m = [].
Proof.
  unfold superclass_trait_items. rewrite <- (replace_first_param_None _ (FnArgReceiver (sm_receiver_mutability m))).
  destruct (replace_first_param _ _); simpl; split; congruence.
Qed.

Lemma subclass_super_impl_item_None (m : SuperclassMethod) :
  subclass_super_impl_item m = None <-> sm_params m = [].
Proof.
  unfold subclass_super_impl_item.
  destruct (sm_receiver_mutability m);
    [rewrite <- (replace_first_param_None _ (FnArgReceiver Const)) |
     rewrite <- (replace_first_param_None _ (FnArgReceiver Mutable))];
    destruct (replace_first_param _ _); simpl; split; congruence.
Qed.

(** C9: [generate_subclass] and [add_superclass_stuff_to_type] return a
    result (do not panic) exactly when every method in the list they are
    given has a parameter to rewrite into the receiver; one method with no
    parameter makes the [unwrap] panic. *)
Theorem subclass_emission_panics_iff_empty_params :
  forall (ext : Externals) (self : RsCodeGenerator) (sub : SubclassName)
         (superclass name : QualifiedName) (methods : list SuperclassMethod)
         (generate_peer_constructor : bool) (items : list Item) (mats : list Use),
    (generate_subclass ext self sub superclass (Some methods) generate_peer_constructor = None <->
     exists m, m ∈ methods /\ sm_params m = []) /\
    generate_subclass ext self sub superclass None generate_peer_constructor <> None /\
    (add_superclass_stuff_to_type ext name items mats (Some methods) = None <->
     exists m, m ∈ methods /\ sm_params m = []) /\
    add_superclass_stuff_to_type ext name items mats None <> None.
Proof.
  intros ext self sub superclass name methods gpc items mats.
  split; [| split; [| split]].
  - unfold generate_subclass. simpl.
    rewrite <- Exists_exists.
    setoid_rewrite <- subclass_super_impl_item_None. rewrite <- mapM_None.
    destruct (mapM subclass_super_impl_item methods); simpl; split; congruence.
  - unfold generate_subclass. simpl. discriminate.
  - unfold add_superclass_stuff_to_type.
    rewrite <- Exists_exists.
    setoid_rewrite <- superclass_trait_items_None. rewrite <- mapM_None.
    destruct (mapM superclass_trait_items methods); simpl; split; congruence.
  - simpl. discriminate.
Qed.

(** ** The string constructor *)

(** C10, as stated: the four conversion impls among the global items of
    the string constructor all call [make_string].  The impl for
    [cxx::UniquePtr<cxx::CxxString>] returns [self] instead. *)
Lemma string_constructor_uniqueptr_impl_no_make_string :
  ~ (forall (ext : Externals) (self : RsCodeGenerator) (name : QualifiedName) r,
       generate_rs_for_api ext self (ApiStringConstructor name) ∅ ∅ = Some r ->
       string_impls_call "make_string" (global_items r)).
Proof.
  intros H.
  specialize (H example_ext example_generator (QN [] "make_string") _ eq_refl
                "cxx::UniquePtr<cxx::CxxString>" ltac:(set_solver)).
  destruct H as (fs & Hin & Hall). simpl in Hin. unfold get_string_items in Hin.
  rewrite !elem_of_cons in Hin.
  destruct Hin as [H | [H | [H | [H | [H | H]]]]]; try discriminate.
  - injection H as ->. apply Forall_inv in Hall. discriminate.
  - apply elem_of_nil in H as [].
Qed.

(** C10, amended: whatever the configuration, the string constructor
    declares the allocation function under the configured makestring
    name, re-exports it under the fixed alias [make_string], and emits the
    fixed [ToCppString] trait and its four impls: those for [&str],
    [String] and [&String] call [make_string], the one for
    [cxx::UniquePtr<cxx::CxxString>] returns [self]. *)
Theorem string_constructor_items :
  forall (ext : Externals) (self : RsCodeGenerator) (name : QualifiedName)
         (am : gmap QualifiedName (list SuperclassMethod)) (subs : gset QualifiedName),
  exists r, generate_rs_for_api ext self (ApiStringConstructor name) am subs = Some r /\
    extern_c_mod_items r =
      [FFn (FnDef_ None false (makestring_name (config self))
              [FnArgTyped (PatIdent "str_") "&str"] "UniquePtr<CxxString>" None)] /\
    materializations r = [UsedFromCxxBridgeWithAlias "make_string"] /\
    materialize ext name (UsedFromCxxBridgeWithAlias "make_string") =
      IUse (find_output_mod_root (qn_ns name) ++ ["cxxbridge"; qn_name name]) (Some "make_string") /\
    global_items r = get_string_items /\
    bridge_items r = [] /\ bindgen_mod_items r = [] /\ impl_entry r = None /\
    extern_rust_mod_items r = [] /\
    (forall ty, ty ∈ ["&str"; "String"; "&String"] ->
       exists fs, IImpl (Some "ToCppString") ty fs ∈ get_string_items /\
                  Forall (fun d => fn_calls "make_string" d = true) fs) /\
    IImpl (Some "ToCppString") "cxx::UniquePtr<cxx::CxxString>"
      [into_cpp (Some (BExpr (EId "self")))] ∈ get_string_items.
Proof.
  intros ext self name am subs. eexists. split; [reflexivity |].
  simpl. repeat split.
  - intros ty Hty. rewrite !elem_of_cons, elem_of_nil in Hty.
    unfold get_string_items.
    destruct Hty as [-> | [-> | [-> | []]]]; eexists.
    + split; [rewrite !elem_of_cons; right; left; reflexivity | repeat constructor].
    + split; [rewrite !elem_of_cons; right; right; left; reflexivity | repeat constructor].
    + split; [rewrite !elem_of_cons; right; right; right; left; reflexivity | repeat constructor].
  - unfold get_string_items. rewrite !elem_of_cons. do 4 right; left; reflexivity.
Qed.

(** ** Error entries *)

Lemma append_nonempty_neq (id s : string) : s <> "" -> id +s+ s <> id.
Proof.
  intros Hs. induction id as [|a id IH]; simpl.
  - exact Hs.
  - intros H. injection H as H. exact (IH H).
Qed.

(** C6, as stated: the placeholder of a whole-item failure carries the
    error text itself as its documentation and is materialized as a plain
    [use] re-export.  Its documentation is the error text behind a fixed
    prefix, and the struct is materialized as itself, not as a [use]. *)
Lemma failed_item_placeholder_not_plain_reexport :
  ~ (forall (ext : Externals) (err id : Ident),
       exists id', generate_error_entry ext err (ECItem id) =
         error_bundle None [Custom (IStruct (ItemStruct_ (Some err) id' []))]) /\
  ~ (forall (ext : Externals) (err id : Ident),
       exists m path, materializations (generate_error_entry ext err (ECItem id)) = [m] /\
         materialize ext (QN [] id) m = IUse path None).
Proof.
  split.
  - intros H. destruct (H example_ext "X" "Foo") as [id' Heq].
    vm_compute in Heq. discriminate.
  - intros H. destruct (H example_ext "X" "Foo") as (m & path & Hm & Hu).
    vm_compute in Hm. injection Hm as <-. vm_compute in Hu. discriminate.
Qed.

(** C6, amended: a whole-item failure with error text [err] on [id] never
    aborts and yields one materialization and nothing else: the zero-field
    struct documented with [error_doc err] (the text behind the prefix
    "autocxx bindings couldn't be generated: "), put as it is into the
    output.  Its name is [id], or, when [id] names a built-in type,
    [id] with the suffix [_autocxx_error], which differs from [id]. *)
Theorem failed_item_placeholder :
  forall (ext : Externals) (self : RsCodeGenerator) (name : QualifiedName) (err id : Ident)
         (am : gmap QualifiedName (list SuperclassMethod)) (subs : gset QualifiedName),
  let id' := if conflicts_with_built_in_type ext (QN [] id) then id +s+ "_autocxx_error" else id in
  generate_rs_for_api ext self (ApiIgnoredItem name err (ECItem id)) am subs =
    Some (error_bundle None [Custom (IStruct (ItemStruct_ (Some (error_doc err)) id' []))]) /\
  error_doc err = "autocxx bindings couldn't be generated: " +s+ err /\
  materialize ext name (Custom (IStruct (ItemStruct_ (Some (error_doc err)) id' []))) =
    IStruct (ItemStruct_ (Some (error_doc err)) id' []) /\
  (conflicts_with_built_in_type ext (QN [] id) = true -> id' <> id).
Proof.
  intros ext self name err id am subs id'. subst id'.
  unfold generate_rs_for_api, generate_error_entry, sanitize_error_ident. simpl.
  destruct (conflicts_with_built_in_type ext (QN [] id)) eqn:Hc.
  - repeat split. intros _. apply append_nonempty_neq. discriminate.
  - repeat split. discriminate.
Qed.

(** C7: a failure of the member [method] of [self_ty]: when [self_ty]
    is not a built-in type name, the bundle is one impl entry keyed by
    [self_ty], holding a placeholder method, with no materialization;
    otherwise it is one top-level placeholder struct named
    [self_ty ++ "_method_" ++ method] with no impl entry. *)
Theorem failed_method_placeholder :
  forall (ext : Externals) (err self_ty method : Ident),
  generate_error_entry ext err (ECMethod self_ty method) =
    if conflicts_with_built_in_type ext (QN [] self_ty) then
      error_bundle None
        [Custom (IStruct (ItemStruct_ (Some (error_doc err))
                            (self_ty +s+ "_method_" +s+ method) []))]
    else
      let method' :=
        if conflicts_with_built_in_type ext (QN [] method) then method +s+ "_autocxx_error"
        else method in
      error_bundle
        (Some (ImplBlockDetails_
                 (FnDef_ (Some (error_doc err)) false method'
                    [FnArgTyped (PatIdent "_uhoh") "autocxx::BindingGenerationFailure"] ""
                    (Some (BStmts [])))
                 self_ty))
        [].
Proof.
  intros ext err self_ty method.
  unfold generate_error_entry, sanitize_error_ident. simpl.
  destruct (conflicts_with_built_in_type ext (QN [] self_ty)); [reflexivity |].
  destruct (conflicts_with_built_in_type ext (QN [] method)); reflexivity.
Qed.

(** ** Record types *)

(** C4, as stated: the wrapper-type items of an opaque record are a
    re-export and nothing more.  A record that is a configured superclass
    also gets its supers and methods traits there. *)
Lemma configured_superclass_record_gets_traits :
  ~ (forall (ext : Externals) (self : RsCodeGenerator) (name : QualifiedName) (item : ItemStruct)
            (kind : TypeKind) (am : gmap QualifiedName (list SuperclassMethod))
            (subs : gset QualifiedName) (r : RsCodegenResult),
       kind = NonPod \/ kind = Abstract ->
       generate_rs_for_api ext self (ApiStruct name item kind) am subs = Some r ->
       Forall is_reexport (bindgen_mod_items r)).
Proof.
  intros H.
  specialize (H example_ext base_generator (QN [] "Base") base_struct NonPod
                (accumulate_superclass_methods base_generator base_apis)
                (find_trivially_constructed_subclasses base_apis) _ (or_introl eq_refl) eq_refl).
  simpl in H. apply Forall_inv in H. destruct H as (path & alias & Heq). discriminate.
Qed.

Lemma superclass_trait_items_mapM (ms : list SuperclassMethod) :
  Forall (fun m => sm_params m <> []) ms ->
  exists pairs, mapM superclass_trait_items ms = Some pairs.
Proof.
  intros Hall. destruct (mapM superclass_trait_items ms) as [pairs|] eqn:E; [eauto |].
  apply mapM_None in E. apply Exists_exists in E as (m & Hin & Hm).
  apply superclass_trait_items_None in Hm.
  rewrite Forall_forall in Hall. by destruct (Hall m Hin).
Qed.

(** C4, amended: when every superclass method recorded for [name] has a
    receiver, the record's bundle is made of the items below, where the
    [traits] and the extra [uses] are empty unless [name] is a configured
    superclass, and are then its supers and methods traits and their two
    re-exports.  A [Pod] record gives its value definition after the
    traits, one [Trivial] extern-type assertion on its identity string,
    the impls of [create_impl_items], one bridge type named [id] that
    refers to the value definition, and one plain re-export from the
    bridge.  A [NonPod] or [Abstract] record gives no value definition,
    no assertion and no impls: one bridge type named [id] with no
    reference to a definition, a [pub use cxxbridge::id] after the traits,
    and the same plain re-export. *)
Theorem record_type_bundles :
  forall (ext : Externals) (self : RsCodeGenerator) (name : QualifiedName) (item : ItemStruct)
         (am : gmap QualifiedName (list SuperclassMethod)) (subs : gset QualifiedName),
  Forall (fun m => sm_params m <> []) (from_option id [] (am !! name)) ->
  let id := qn_name name in
  exists traits uses ns cxx_name,
    add_superclass_stuff_to_type ext name [] [UsedFromCxxBridge] (am !! name) =
      Some (traits, UsedFromCxxBridge :: uses) /\
    (am !! name = None -> traits = [] /\ uses = []) /\
    (forall ms, am !! name = Some ms ->
       exists t1 t2,
         traits = [ITrait (qn_name (get_supers_trait_name ext name)) None t1;
                   ITrait (qn_name (get_methods_trait_name ext name))
                     (Some (qn_name (get_supers_trait_name ext name))) t2] /\
         uses = [SpecificNameFromBindgen (qn_name (get_methods_trait_name ext name));
                 SpecificNameFromBindgen (qn_name (get_supers_trait_name ext name))]) /\
    generate_rs_for_api ext self (ApiStruct name item Pod) am subs =
      Some {| bindgen_mod_items := traits ++ [IStruct item];
              global_items :=
                [IExternTypeImpl (get_bindgen_path_idents ext name)
                   (namespaced_name_using_original_name_map name (original_name_map self))
                   "Trivial"];
              bridge_items := create_impl_items ext id (config self);
              extern_c_mod_items :=
                [FType ns cxx_name None id (Some (["super"; "bindgen"; "root"] ++ qn_ns name ++ [id]))];
              materializations := UsedFromCxxBridge :: uses;
              impl_entry := None; extern_rust_mod_items := [] |} /\
    (forall kind, kind = NonPod \/ kind = Abstract ->
       generate_rs_for_api ext self (ApiStruct name item kind) am subs =
         Some {| bindgen_mod_items := traits ++ [IUse ["cxxbridge"; id] None];
                 global_items := []; bridge_items := [];
                 extern_c_mod_items := [FType ns cxx_name (st_doc item) id None];
                 materializations := UsedFromCxxBridge :: uses;
                 impl_entry := None; extern_rust_mod_items := [] |}) /\
    materialize ext name UsedFromCxxBridge =
      IUse (find_output_mod_root (qn_ns name) ++ ["cxxbridge"; id]) None.
Proof.
  intros ext self name item am subs Hok id.
  assert (Hadd : exists traits uses,
    add_superclass_stuff_to_type ext name [] [UsedFromCxxBridge] (am !! name) =
      Some (traits, UsedFromCxxBridge :: uses) /\
    (am !! name = None -> traits = [] /\ uses = []) /\
    (forall ms, am !! name = Some ms ->
       exists t1 t2,
         traits = [ITrait (qn_name (get_supers_trait_name ext name)) None t1;
                   ITrait (qn_name (get_methods_trait_name ext name))
                     (Some (qn_name (get_supers_trait_name ext name))) t2] /\
         uses = [SpecificNameFromBindgen (qn_name (get_methods_trait_name ext name));
                 SpecificNameFromBindgen (qn_name (get_supers_trait_name ext name))])).
  { destruct (am !! name) as [ms|] eqn:E; simpl in Hok |- *.
    - destruct (superclass_trait_items_mapM ms Hok) as [pairs Hp]. rewrite Hp. simpl.
      do 2 eexists. split; [reflexivity |]. split; [discriminate |].
      intros ms' [= <-]. do 2 eexists. split; reflexivity.
    - exists [], []. split; [reflexivity |]. split; [auto | discriminate]. }
  destruct Hadd as (traits & uses & Hadd & Hnone & Hsome).
  set (ft := generate_cxxbridge_type self name true None).
  assert (Hft : exists ns cxx_name,
    (forall b d, generate_cxxbridge_type self name b d =
       FType ns cxx_name d id
         (if b then Some (["super"; "bindgen"; "root"] ++ qn_ns name ++ [id]) else None))).
  { unfold generate_cxxbridge_type.
    destruct (original_name_map self !! name); simpl; eauto. }
  destruct Hft as (ns & cxx_name & Hft).
  exists traits, uses, ns, cxx_name.
  split; [exact Hadd |]. split; [exact Hnone |]. split; [exact Hsome |].
  unfold generate_rs_for_api, generate_type. simpl. rewrite Hadd. simpl.
  split; [| split].
  - rewrite Hft. reflexivity.
  - intros kind [-> | ->]; simpl; rewrite Hft; reflexivity.
  - reflexivity.
Qed.

Lemma record_type_bundles_witness :
  Forall (fun m => sm_params m <> [])
    (from_option id [] ((∅ : gmap QualifiedName (list SuperclassMethod)) !! QN [] "A")) /\
  exists traits uses ns cxx_name,
    add_superclass_stuff_to_type example_ext (QN [] "A") [] [UsedFromCxxBridge]
      ((∅ : gmap QualifiedName (list SuperclassMethod)) !! QN [] "A") =
      Some (traits, UsedFromCxxBridge :: uses) /\
    generate_rs_for_api example_ext example_generator
      (ApiStruct (QN [] "A") (ItemStruct_ None "A" []) Pod) ∅ ∅ =
      Some {| bindgen_mod_items := traits ++ [IStruct (ItemStruct_ None "A" [])];
              global_items :=
                [IExternTypeImpl ["bindgen"; "root"; "A"] "A" "Trivial"];
              bridge_items := [IImpl None "UniquePtr<A>" []];
              extern_c_mod_items :=
                [FType ns cxx_name None "A" (Some ["super"; "bindgen"; "root"; "A"])];
              materializations := UsedFromCxxBridge :: uses;
              impl_entry := None; extern_rust_mod_items := [] |}.
Proof.
  split; [rewrite lookup_empty; constructor |].
  destruct (record_type_bundles example_ext example_generator (QN [] "A") (ItemStruct_ None "A" [])
              ∅ ∅ ltac:(rewrite lookup_empty; constructor))
    as (traits & uses & ns & cxx_name & Hadd & _ & _ & Hpod & _ & _).
  exists traits, uses, ns, cxx_name. split; [exact Hadd | exact Hpod].
Defined.

(** ** What a subclass forwarding function does when it runs *)

Lemma unqualify_params_args (ext : Externals) (params : list FnArg) :
  args_from_sig (unqualify_params ext params) = args_from_sig params.
Proof.
  unfold args_from_sig, unqualify_params. rewrite <- fmap_drop.
  induction (drop 1 params) as [|a l IH]; [reflexivity |].
  destruct a as [| rm | [] ty]; simpl; first [exact IH | f_equal; exact IH].
Qed.

(** C5: the forwarding function of a [RustSubclassFn] item is one global
    function whose body, run with the back-reference absent, panics with
    the "destroyed" message and attempts no borrow; with it present,
    attempts [try_borrow_mut] for a mutable receiver and [try_borrow]
    otherwise, and if that borrow is held already panics with the
    "reentrant" message and calls nothing; otherwise calls the method
    through the methods trait with [r] and then the named parameters
    after the receiver in their order.  Both messages name the method,
    the subclass and the superclass. *)
Theorem subclass_fn_forwarding_protocol :
  forall (ext : Externals) (api_name : Ident) (details : RustSubclassFnDetails)
         (subclass : SubclassName),
  let method := d_method_name details in
  let sub := to_cpp_name (sub_name subclass) in
  let sup := qn_name (d_superclass details) in
  let rm := d_receiver_mutability details in
  exists body,
    global_items (generate_subclass_fn ext api_name details subclass) =
      [IFn (FnDef_ None (d_requires_unsafe details) api_name (d_params details) (d_ret details)
              body)] /\
    run_body None body = [EvPanic (destroy_panic_msg method sub sup)] /\
    (forall st, run_body (Some st) body =
       EvBorrowAttempt (borrow_name rm) ::
       if borrow_held rm st then [EvPanic (reentrancy_panic_msg method sub sup)]
       else [EvCall (to_type_path ext (get_methods_trait_name ext (d_superclass details))) method
               (EId "r" :: omap arg_expr (drop 1 (d_params details)))]) /\
    destroy_panic_msg method sub sup =
      "Rust subclass API (method " +s+ method +s+ " of subclass " +s+ sub
      +s+ " of superclass " +s+ sup +s+ ") called after subclass destroyed" /\
    reentrancy_panic_msg method sub sup =
      "Rust subclass API (method " +s+ method +s+ " of subclass " +s+ sub
      +s+ " of superclass " +s+ sup
      +s+ ") called whilst subclass already borrowed - likely a re-entrant call".
Proof.
  intros ext api_name details subclass method sub sup rm.
  unfold generate_subclass_fn. simpl.
  rewrite unqualify_params_args.
  subst rm. destruct (d_receiver_mutability details); simpl;
    eexists; (split; [reflexivity |]); (split; [reflexivity |]);
    (split; [| split; reflexivity]);
    intros []; reflexivity.
Qed.

(** ** The namespace tree and its two renderings *)

Lemma strip_prefix_Some (p q r : list string) : strip_prefix p q = Some r <-> q = p ++ r.
Proof.
  revert q. induction p as [|s p IH]; intros [|s' q]; simpl.
  - split; congruence.
  - split; congruence.
  - split; [discriminate | intros H; discriminate H].
  - destruct (String.eqb_spec s s') as [<- | Hne].
    + rewrite IH. split; [intros ->; reflexivity | intros H; injection H; auto].
    + split; [discriminate | intros H; injection H; intros _ ->; congruence].
Qed.

Lemma strip_prefix_app (p q r : list string) :
  strip_prefix (p ++ q) r = (r' ← strip_prefix p r; strip_prefix q r').
Proof.
  revert r. induction p as [|s p IH]; intros [|s' r]; simpl; try reflexivity.
  destruct (String.eqb s s'); [apply IH | reflexivity].
Qed.

Lemma strip_path_nil {A} (l : list (list string * A)) : strip_path [] l = l.
Proof. induction l as [|[q a] l IH]; simpl; [reflexivity | f_equal; exact IH]. Qed.

Lemma strip_path_app {A} (p q : list string) (l : list (list string * A)) :
  strip_path (p ++ q) l = strip_path q (strip_path p l).
Proof.
  unfold strip_path. induction l as [|[r a] l IH]; [reflexivity |].
  simpl. rewrite strip_prefix_app.
  destruct (strip_prefix p r) as [r'|]; simpl.
  - destruct (strip_prefix q r'); simpl; [f_equal |]; exact IH.
  - exact IH.
Qed.

Lemma strip_path_snoc {A} (p q : list string) (x : A) (l : list (list string * A)) :
  strip_path p (l ++ [(q, x)]) =
  strip_path p l ++ match strip_prefix p q with Some r => [(r, x)] | None => [] end.
Proof.
  unfold strip_path. rewrite omap_app. f_equal. simpl.
  destruct (strip_prefix p q); reflexivity.
Qed.

Lemma insert_at_cons {A} (seg : string) (rest : list string) (x : A) (t : NamespaceEntries A) :
  insert_at (seg :: rest) x t =
  NSE (nse_entries t) (insert_child seg (insert_at rest x) (nse_children t)).
Proof.
  simpl. f_equal. induction (nse_children t) as [|[s c] ch IH]; simpl; [reflexivity |].
  destruct (String.eqb s seg); [reflexivity | f_equal; exact IH].
Qed.

Lemma insert_child_keys {A} (seg : string) (f : NamespaceEntries A -> NamespaceEntries A)
    (ch : list (string * NamespaceEntries A)) :
  map fst (insert_child seg f ch) =
  map fst ch ++ (if decide (seg ∈ map fst ch) then [] else [seg]).
Proof.
  induction ch as [|[s c] ch IH]; simpl.
  - reflexivity.
  - destruct (String.eqb_spec s seg) as [-> | Hne]; simpl.
    + rewrite decide_True; [by rewrite app_nil_r | apply elem_of_cons; left; reflexivity].
    + rewrite IH. f_equal. destruct (decide (seg ∈ map fst ch)) as [Hin | Hnin].
      * rewrite decide_True; [reflexivity | apply elem_of_cons; right; exact Hin].
      * rewrite decide_False; [reflexivity |].
        rewrite elem_of_cons. intros [-> | H]; [congruence | contradiction].
Qed.

Lemma insert_child_NoDup {A} (seg : string) (f : NamespaceEntries A -> NamespaceEntries A)
    (ch : list (string * NamespaceEntries A)) :
  NoDup (map fst ch) -> NoDup (map fst (insert_child seg f ch)).
Proof.
  intros Hnd. rewrite insert_child_keys.
  destruct (decide (seg ∈ map fst ch)) as [Hin | Hnin].
  - rewrite app_nil_r. exact Hnd.
  - apply NoDup_app. split; [exact Hnd |]. split; [| apply NoDup_singleton].
    intros y Hy Hy'. apply list_elem_of_singleton in Hy'. subst. contradiction.
Qed.

Lemma insert_child_elem {A} (seg : string) (f : NamespaceEntries A -> NamespaceEntries A)
    (ch : list (string * NamespaceEntries A)) (s : string) (c' : NamespaceEntries A) :
  NoDup (map fst ch) -> (s, c') ∈ insert_child seg f ch ->
  (s <> seg /\ (s, c') ∈ ch) \/
  (s = seg /\ ((exists c, (seg, c) ∈ ch /\ c' = f c) \/
               ((seg ∉ map fst ch) /\ c' = f (NSE [] [])))).
Proof.
  induction ch as [|[s0 c0] ch IH]; simpl; intros Hnd Hin.
  - apply list_elem_of_singleton in Hin. injection Hin as -> ->.
    right. split; [reflexivity | right; split; [apply not_elem_of_nil | reflexivity]].
  - apply NoDup_cons in Hnd as [Hs0 Hnd].
    destruct (String.eqb_spec s0 seg) as [-> | Hne].
    + apply elem_of_cons in Hin as [Heq | Hin].
      * injection Heq as -> ->. right. split; [reflexivity |].
        left. exists c0. split; [apply elem_of_cons; left; reflexivity | reflexivity].
      * left. split.
        -- intros ->. apply Hs0. apply list_elem_of_fmap. exists (seg, c'). split; [reflexivity | exact Hin].
        -- apply elem_of_cons. right. exact Hin.
    + apply elem_of_cons in Hin as [Heq | Hin].
      * injection Heq as -> ->. left. split; [exact Hne | apply elem_of_cons; left; reflexivity].
      * destruct (IH Hnd Hin) as [[Hne' Hin'] | [-> [(c & Hc & ->) | [Hnin ->]]]].
        -- left. split; [exact Hne' | apply elem_of_cons; right; exact Hin'].
        -- right. split; [reflexivity |]. left. exists c.
           split; [apply elem_of_cons; right; exact Hc | reflexivity].
        -- right. split; [reflexivity |]. right. split; [| reflexivity].
           rewrite elem_of_cons. intros [-> | H]; [congruence | contradiction].
Qed.

Lemma nse_inv_empty {A} : nse_inv (A:=A) (NSE [] []) [].
Proof.
  constructor; simpl.
  - reflexivity.
  - constructor.
  - intros s c H. apply elem_of_nil in H as [].
  - intros s c H. apply elem_of_nil in H as [].
  - reflexivity.
Qed.

Lemma strip_path_snoc_other {A} (s seg : string) (rest : list string) (x : A)
    (l : list (list string * A)) :
  s <> seg -> strip_path [s] (l ++ [(seg :: rest, x)]) = strip_path [s] l.
Proof.
  intros Hne. rewrite strip_path_snoc. simpl.
  destruct (String.eqb_spec s seg); [contradiction | apply app_nil_r].
Qed.

Lemma insert_at_inv {A} (p : list string) (x : A) :
  forall t l, nse_inv t l -> nse_inv (insert_at p x t) (l ++ [(p, x)]).
Proof.
  induction p as [|seg rest IH]; intros t l Hinv;
    inversion Hinv as [es ch l' Hes Hnd Hne Hch Hcomp]; subst.
  - simpl. constructor.
    + rewrite filter_app, map_app, filter_cons_True, filter_nil; reflexivity.
    + exact Hnd.
    + intros s c Hin. rewrite strip_path_snoc. simpl. rewrite app_nil_r. eauto.
    + intros s c Hin. rewrite strip_path_snoc. simpl. rewrite app_nil_r. eauto.
    + intros s Hs. rewrite strip_path_snoc. simpl. rewrite app_nil_r. eauto.
  - rewrite insert_at_cons. simpl. constructor.
    + rewrite filter_app, map_app, filter_cons_False, filter_nil; [| discriminate].
      rewrite app_nil_r. reflexivity.
    + apply insert_child_NoDup. exact Hnd.
    + intros s c' Hin.
      destruct (insert_child_elem _ _ _ _ _ Hnd Hin) as [[Hs Hin'] | [-> _]].
      * rewrite strip_path_snoc_other by exact Hs. exact (Hne s c' Hin').
      * rewrite strip_path_snoc. simpl. rewrite String.eqb_refl.
        intros H. apply app_eq_nil in H as [_ H]. discriminate.
    + intros s c' Hin.
      destruct (insert_child_elem _ _ _ _ _ Hnd Hin) as [[Hs Hin'] | [-> [(c & Hc & ->) | [Hnin ->]]]].
      * rewrite strip_path_snoc_other by exact Hs. exact (Hch s c' Hin').
      * rewrite strip_path_snoc. simpl. rewrite String.eqb_refl. apply IH. exact (Hch seg c Hc).
      * rewrite strip_path_snoc. simpl. rewrite String.eqb_refl, (Hcomp seg Hnin).
        apply (IH (NSE [] []) []). apply nse_inv_empty.
    + intros s Hs. rewrite insert_child_keys in Hs.
      assert (Hs' : (s ∉ map fst ch) /\ s <> seg).
      { destruct (decide (seg ∈ map fst ch)) as [Hin | Hnin].
        - rewrite app_nil_r in Hs. split; [exact Hs | intros ->; contradiction].
        - rewrite elem_of_app, list_elem_of_singleton in Hs. split; intros H; apply Hs; auto. }
      destruct Hs' as [Hs' Hne'].
      rewrite strip_path_snoc_other by exact Hne'. eauto.
Qed.

Lemma nse_new_inv {A} (get_namespace : A -> list string) (items : list A) :
  nse_inv (nse_new get_namespace items) (map (fun x => (get_namespace x, x)) items).
Proof.
  induction items as [|x items IH] using rev_ind.
  - apply nse_inv_empty.
  - unfold nse_new in *. rewrite foldl_app, map_app. simpl.
    apply insert_at_inv. exact IH.
Qed.

Lemma child_lookup_elem {A} (s : string) (c : NamespaceEntries A)
    (ch : list (string * NamespaceEntries A)) :
  NoDup (map fst ch) -> (s, c) ∈ ch -> child_lookup s ch = Some c.
Proof.
  induction ch as [|[s0 c0] ch IH]; simpl; intros Hnd Hin.
  - apply elem_of_nil in Hin as [].
  - apply NoDup_cons in Hnd as [Hs0 Hnd].
    apply elem_of_cons in Hin as [Heq | Hin].
    + injection Heq as -> ->. rewrite String.eqb_refl. reflexivity.
    + destruct (String.eqb_spec s0 s) as [-> | Hne]; [| exact (IH Hnd Hin)].
      exfalso. apply Hs0. apply list_elem_of_fmap. exists (s, c). split; [reflexivity | exact Hin].
Qed.

Lemma child_lookup_Some {A} (s : string) (c : NamespaceEntries A)
    (ch : list (string * NamespaceEntries A)) :
  child_lookup s ch = Some c -> (s, c) ∈ ch.
Proof.
  induction ch as [|[s0 c0] ch IH]; simpl; [discriminate |].
  destruct (String.eqb_spec s0 s) as [-> | Hne].
  - intros [= ->]. apply elem_of_cons. left. reflexivity.
  - intros H. apply elem_of_cons. right. exact (IH H).
Qed.

Lemma nse_lookup_app {A} (p : list string) (s : string) (t : NamespaceEntries A) :
  nse_lookup (p ++ [s]) t = (t' ← nse_lookup p t; child_lookup s (nse_children t')).
Proof.
  revert t. induction p as [|s0 p IH]; intros t; simpl.
  - destruct (child_lookup s (nse_children t)); reflexivity.
  - destruct (child_lookup s0 (nse_children t)); [apply IH | reflexivity].
Qed.

Lemma nse_lookup_inv {A} (p : list string) :
  forall (t t' : NamespaceEntries A) l, nse_inv t l -> nse_lookup p t = Some t' ->
  nse_inv t' (strip_path p l).
Proof.
  induction p as [|s p IH]; intros t t' l Hinv Hl; simpl in Hl.
  - injection Hl as <-. rewrite strip_path_nil. exact Hinv.
  - destruct (child_lookup s (nse_children t)) as [c|] eqn:Hc; [| discriminate].
    inversion Hinv as [es ch l' Hes Hnd Hne Hch Hcomp]; subst. simpl in Hc.
    apply child_lookup_Some in Hc.
    change (s :: p) with ([s] ++ p). rewrite strip_path_app.
    exact (IH c t' _ (Hch s c Hc) Hl).
Qed.

Lemma entries_at_path {A} (get_namespace : A -> list string) (p : list string) (items : list A) :
  map snd (filter (fun pe => pe.1 = [])
             (strip_path p (map (fun x => (get_namespace x, x)) items))) =
  filter (fun x => get_namespace x = p) items.
Proof.
  induction items as [|x items IH]; [reflexivity |].
  unfold strip_path in *. simpl.
  destruct (strip_prefix p (get_namespace x)) as [r|] eqn:Hr; simpl.
  - apply strip_prefix_Some in Hr.
    destruct r as [|s r].
    + rewrite filter_cons_True by reflexivity. rewrite (filter_cons_True _ x) by (rewrite Hr; apply app_nil_r).
      simpl. f_equal. exact IH.
    + rewrite filter_cons_False by discriminate.
      rewrite (filter_cons_False _ x); [exact IH |].
      rewrite Hr. intros H. apply (f_equal length) in H. rewrite length_app in H. simpl in H. lia.
  - rewrite (filter_cons_False _ x); [exact IH |].
    intros H. rewrite <- H in Hr.
    assert (Hs : strip_prefix (get_namespace x) (get_namespace x) = Some []).
    { apply strip_prefix_Some. symmetry. apply app_nil_r. }
    congruence.
Qed.

Lemma strip_path_nonempty {A} (get_namespace : A -> list string) (p : list string) (items : list A) :
  strip_path p (map (fun x => (get_namespace x, x)) items) <> [] ->
  exists x, x ∈ items /\ p `prefix_of` get_namespace x.
Proof.
  induction items as [|x items IH]; [contradiction |].
  unfold strip_path in *. simpl.
  destruct (strip_prefix p (get_namespace x)) as [r|] eqn:Hr; simpl; intros H.
  - apply strip_prefix_Some in Hr. exists x. split; [apply elem_of_cons; left; reflexivity |].
    exists r. exact Hr.
  - destruct (IH H) as (y & Hy & Hp). exists y. split; [apply elem_of_cons; right; exact Hy | exact Hp].
Qed.

Lemma use_render_eq (ext : Externals) (es : list (QualifiedName * RsCodegenResult))
    (ch : list (string * NamespaceEntries (QualifiedName * RsCodegenResult))) :
  append_child_use_namespace ext (NSE es ch) =
  flat_map (use_items_of_entry ext) es ++
  flat_map (fun sc => if is_empty sc.2 then [] else [IMod sc.1 (append_child_use_namespace ext sc.2)]) ch.
Proof.
  simpl. f_equal. induction ch as [|[s c] ch IH]; simpl; [reflexivity | f_equal; exact IH].
Qed.

Lemma bindgen_render_eq (self : RsCodeGenerator) (ord : IterOrder)
    (es : list (QualifiedName * RsCodegenResult))
    (ch : list (string * NamespaceEntries (QualifiedName * RsCodegenResult))) (ns : list string) :
  append_child_bindgen_namespace self ord (NSE es ch) ns =
  flat_map (fun e => bindgen_mod_items e.2) es ++
  merged_impls ord (impl_entries_by_type es) ++
  flat_map (fun sc =>
              match append_child_bindgen_namespace self ord sc.2 (ns ++ [sc.1]) with
              | [] => []
              | inner => [IMod sc.1 (inner ++ append_uses_for_ns self (ns ++ [sc.1]))]
              end) ch.
Proof.
  simpl. f_equal. f_equal. induction ch as [|[s c] ch IH]; simpl; [reflexivity |].
  destruct (append_child_bindgen_namespace self ord c (ns ++ [s])); simpl; [exact IH | f_equal; exact IH].
Qed.

Lemma impl_entries_by_type_lookup (es : list (QualifiedName * RsCodegenResult)) (ty : Ident) :
  impl_entries_by_type es !! ty =
  match filter (fun ie => ibd_ty ie = ty) (impl_entries_of es) with
  | [] => None
  | _ => Some (impl_items_for ty (impl_entries_of es))
  end.
Proof.
  unfold impl_items_for, impl_entries_of.
  induction es as [|e es IH] using rev_ind; [reflexivity |].
  unfold impl_entries_by_type in *. rewrite foldl_app. simpl.
  unfold push_impl_entry at 1. rewrite omap_app. simpl.
  destruct (impl_entry e.2) as [ie|] eqn:Hie; simpl.
  - rewrite filter_app. destruct (decide (ibd_ty ie = ty)) as [<- | Hne].
    + rewrite lookup_insert_eq, IH, filter_cons_True, filter_nil by reflexivity.
      destruct (filter _ _); simpl; [reflexivity | rewrite map_app; reflexivity].
    + rewrite lookup_insert_ne by exact Hne. rewrite IH, filter_cons_False, filter_nil, app_nil_r by exact Hne.
      reflexivity.
  - rewrite app_nil_r. exact IH.
Qed.

Lemma merged_impls_elem (ord : IterOrder) (Hord : valid_iter_order ord)
    (es : list (QualifiedName * RsCodegenResult)) (b : Item) :
  b ∈ merged_impls ord (impl_entries_by_type es) <->
  exists ie, ie ∈ impl_entries_of es /\
             b = IImpl None (ibd_ty ie) (impl_items_for (ibd_ty ie) (impl_entries_of es)).
Proof.
  unfold merged_impls. rewrite list_elem_of_fmap. setoid_rewrite (Hord _).
  split.
  - intros (ty & -> & Hty). apply list_elem_of_fmap in Hty as ([ty' v] & -> & Hkv).
    apply elem_of_map_to_list in Hkv. simpl.
    pose proof Hkv as Hkv'. rewrite impl_entries_by_type_lookup in Hkv'.
    destruct (filter (fun ie => ibd_ty ie = ty') (impl_entries_of es)) as [|ie ies] eqn:Hf;
      [discriminate |].
    assert (Hin : ie ∈ filter (fun ie => ibd_ty ie = ty') (impl_entries_of es))
      by (rewrite Hf; apply elem_of_cons; left; reflexivity).
    apply list_elem_of_filter in Hin as [Hty Hin].
    exists ie. split; [exact Hin |]. rewrite Hty.
    rewrite (lookup_total_correct _ _ _ Hkv). injection Hkv' as <-. reflexivity.
  - intros (ie & Hin & ->). exists (ibd_ty ie).
    assert (Hl : impl_entries_by_type es !! ibd_ty ie =
                 Some (impl_items_for (ibd_ty ie) (impl_entries_of es))).
    { rewrite impl_entries_by_type_lookup.
      destruct (filter (fun ie' => ibd_ty ie' = ibd_ty ie) (impl_entries_of es)) eqn:Hf;
        [| reflexivity].
      assert (Hin' : ie ∈ filter (fun ie' => ibd_ty ie' = ibd_ty ie) (impl_entries_of es))
        by (apply list_elem_of_filter; split; [reflexivity | exact Hin]).
      rewrite Hf in Hin'. apply elem_of_nil in Hin' as []. }
    split.
    + rewrite (lookup_total_correct _ _ _ Hl). reflexivity.
    + apply list_elem_of_fmap. exists (ibd_ty ie, impl_items_for (ibd_ty ie) (impl_entries_of es)).
      split; [reflexivity |]. apply elem_of_map_to_list. exact Hl.
Qed.

Lemma merged_impls_NoDup (ord : IterOrder) (Hord : valid_iter_order ord)
    (m : gmap Ident (list FnDef)) :
  NoDup (merged_impls ord m).
Proof.
  unfold merged_impls. apply NoDup_fmap_2.
  - intros x y H. injection H as H _. exact H.
  - rewrite (Hord _). apply NoDup_fst_map_to_list.
Qed.

Lemma valid_iter_order_id : valid_iter_order (fun l => l).
Proof. intros l. reflexivity. Qed.

(** C8, as stated, for the bindgen rendering of the root namespace:
    whatever comes from an earlier entry comes before whatever comes from
    a later one.  The impl blocks are emitted after the items of all the
    entries of the level. *)
Lemma bindgen_impl_blocks_after_level_items :
  ~ (forall (self : RsCodeGenerator) (ord : IterOrder), valid_iter_order ord ->
     forall (items : list (QualifiedName * RsCodegenResult)) i j e1 e2 x y,
       i < j -> items !! i = Some e1 -> items !! j = Some e2 ->
       entry_ns e1 = [] -> entry_ns e2 = [] -> contributes e1 x -> contributes e2 y ->
       exists k l, k < l /\ generate_final_bindgen_mods self ord items !! k = Some x /\
                   generate_final_bindgen_mods self ord items !! l = Some y).
Proof.
  intros H.
  destruct (H example_generator (fun l => l) valid_iter_order_id root_entries 0 1 _ _
              (IImpl None "A" [failed_method_fn]) (IConst "C" "1")
              ltac:(lia) eq_refl eq_refl eq_refl eq_refl)
    as (k & l & Hkl & Hk & Hl).
  - right. do 2 eexists. split; [reflexivity |]. split; [reflexivity |].
    apply elem_of_cons. left. reflexivity.
  - left. apply elem_of_cons. left. reflexivity.
  - vm_compute in Hk, Hl.
    destruct k as [|[|[|[|[|k]]]]]; try discriminate.
    destruct l as [|[|[|[|[|l]]]]]; try discriminate. lia.
Qed.

(** C8, amended: in the tree built from [items], the node at [p] holds the
    entries of namespace [p] in input order, and each of its children is
    the node one segment further down, below which some entry lies.  The
    [use] rendering of the node gives the materializations of its entries
    in input order, then one module per non-empty child.  The bindgen
    rendering gives the bindgen items of its entries in input order, then
    one merged impl block per type that has impl entries, each holding
    those entries' items in input order, then one module per child whose
    rendering is not empty. *)
Theorem namespace_renderings :
  forall (ext : Externals) (self : RsCodeGenerator) (ord : IterOrder)
         (items : list (QualifiedName * RsCodegenResult)) (p : list string)
         (t : NamespaceEntries (QualifiedName * RsCodegenResult)),
  valid_iter_order ord ->
  nse_lookup p (nse_new entry_ns items) = Some t ->
  let tree := nse_new entry_ns items in
  let level := filter (fun e => entry_ns e = p) items in
  generate_final_use_statements ext items = append_child_use_namespace ext tree /\
  generate_final_bindgen_mods self ord items =
    append_child_bindgen_namespace self ord tree [] ++ append_uses_for_ns self [] /\
  nse_lookup [] tree = Some tree /\
  nse_entries t = level /\
  (forall s c, (s, c) ∈ nse_children t ->
     nse_lookup (p ++ [s]) tree = Some c /\
     exists e, e ∈ items /\ (p ++ [s]) `prefix_of` entry_ns e) /\
  append_child_use_namespace ext t =
    flat_map (use_items_of_entry ext) level ++
    flat_map (fun sc => if is_empty sc.2 then [] else [IMod sc.1 (append_child_use_namespace ext sc.2)])
      (nse_children t) /\
  exists blocks,
    append_child_bindgen_namespace self ord t p =
      flat_map (fun e => bindgen_mod_items e.2) level ++ blocks ++
      flat_map (fun sc =>
                  match append_child_bindgen_namespace self ord sc.2 (p ++ [sc.1]) with
                  | [] => []
                  | inner => [IMod sc.1 (inner ++ append_uses_for_ns self (p ++ [sc.1]))]
                  end) (nse_children t) /\
    NoDup blocks /\
    (forall b, b ∈ blocks <->
       exists ie, ie ∈ impl_entries_of level /\
                  b = IImpl None (ibd_ty ie) (impl_items_for (ibd_ty ie) (impl_entries_of level))).
Proof.
  intros ext self ord items p t Hord Ht tree level.
  pose proof (nse_new_inv entry_ns items) as Hinv.
  pose proof (nse_lookup_inv p _ _ _ Hinv Ht) as Hinv'.
  destruct t as [es ch].
  inversion Hinv' as [es' ch' l' Hes Hnd Hne Hch Hcomp]; subst es' ch' l'.
  assert (Hlevel : es = level) by (rewrite Hes; apply entries_at_path).
  split; [reflexivity |]. split; [reflexivity |]. split; [reflexivity |].
  split; [exact Hlevel |].
  split; [| split].
  - intros s c Hin. split.
    + rewrite nse_lookup_app. fold tree in Ht. rewrite Ht. simpl.
      apply child_lookup_elem; assumption.
    + apply strip_path_nonempty with (get_namespace := entry_ns).
      rewrite strip_path_app. exact (Hne s c Hin).
  - rewrite use_render_eq, Hlevel. reflexivity.
  - exists (merged_impls ord (impl_entries_by_type level)).
    split; [rewrite bindgen_render_eq, Hlevel; reflexivity |].
    split; [apply merged_impls_NoDup; exact Hord |].
    intros b. apply merged_impls_elem. exact Hord.
Qed.

Lemma namespace_renderings_witness :
  valid_iter_order (fun l => l) /\
  nse_lookup [] (nse_new entry_ns root_entries) = Some (nse_new entry_ns root_entries) /\
  nse_entries (nse_new entry_ns root_entries) = filter (fun e => entry_ns e = []) root_entries.
Proof.
  split; [exact valid_iter_order_id |]. split; [reflexivity |].
  exact (proj1 (proj2 (proj2 (proj2
           (namespace_renderings example_ext example_generator (fun l => l) root_entries []
              (nse_new entry_ns root_entries) valid_iter_order_id eq_refl))))).
Defined.

(** ** Reproducibility *)

Lemma valid_iter_order_rev : valid_iter_order (@rev Ident).
Proof. intros l. symmetry. apply Permutation_rev. Qed.

(** C1: two processes, whose [HashMap]s hand out their keys in two
    different orders, generate different code from the same input: the
    merged impl blocks of [A] and [B] come out in the two orders. *)
Theorem generate_rs_code_depends_on_hash_order :
  valid_iter_order (fun l => l) /\ valid_iter_order (@rev Ident) /\
  generate_rs_code example_ext (fun l => l) two_failed_methods ["input.h"] "bindgen" example_config <>
  generate_rs_code example_ext (@rev Ident) two_failed_methods ["input.h"] "bindgen" example_config.
Proof.
  split; [exact valid_iter_order_id |]. split; [exact valid_iter_order_rev |].
  vm_compute. discriminate.
Qed.

(** ** Which APIs can panic, and the assembled output *)

Lemma add_superclass_stuff_None (ext : Externals) (name : QualifiedName) (b : list Item)
    (m : list Use) (methods : option (list SuperclassMethod)) :
  add_superclass_stuff_to_type ext name b m methods = None <->
  exists ms, methods = Some ms /\ Exists (fun sm => sm_params sm = []) ms.
Proof.
  destruct methods as [ms |]; simpl.
  - transitivity (Exists (fun sm => sm_params sm = []) ms); [| naive_solver].
    setoid_rewrite <- superclass_trait_items_None. rewrite <- mapM_None.
    destruct (mapM superclass_trait_items ms); simpl; split; congruence.
  - split; [discriminate | by intros (ms & ? & _)].
Qed.

Lemma generate_subclass_None (ext : Externals) (self : RsCodeGenerator) (sub : SubclassName)
    (superclass : QualifiedName) (methods : option (list SuperclassMethod)) (gpc : bool) :
  generate_subclass ext self sub superclass methods gpc = None <->
  exists ms, methods = Some ms /\ Exists (fun sm => sm_params sm = []) ms.
Proof.
  unfold generate_subclass. destruct methods as [ms |]; simpl.
  - transitivity (Exists (fun sm => sm_params sm = []) ms); [| naive_solver].
    setoid_rewrite <- subclass_super_impl_item_None. rewrite <- mapM_None.
    destruct (mapM subclass_super_impl_item ms); simpl; split; congruence.
  - split; [discriminate | by intros (ms & ? & _)].
Qed.

Lemma generate_type_None (ext : Externals) (self : RsCodeGenerator) (name : QualifiedName)
    (id : Ident) (kind : TypeKind) (orig_item : option (Item * option string))
    (am : gmap QualifiedName (list SuperclassMethod)) :
  (kind = Pod \/ kind = NonPodNested -> orig_item <> None) ->
  generate_type ext self name id kind orig_item am = None <->
  add_superclass_stuff_to_type ext name [] [UsedFromCxxBridge] (am !! name) = None.
Proof.
  intros Horig. unfold generate_type.
  destruct (add_superclass_stuff_to_type _ _ _ _ _) as [[bi mats] |]; simpl; [| done].
  split; [| discriminate].
  destruct kind; try discriminate;
    (destruct orig_item as [[it d] |]; [discriminate | by destruct Horig; auto]).
Qed.

Lemma generate_rs_for_api_None_iff (ext : Externals) (self : RsCodeGenerator) (api : Api)
    (am : gmap QualifiedName (list SuperclassMethod)) (subs : gset QualifiedName) :
  generate_rs_for_api ext self api am subs = None <->
  exists q ms sm, superclass_key api = Some q /\ am !! q = Some ms /\ sm ∈ ms /\ sm_params sm = [].
Proof.
  assert (Hkey : forall q, (exists ms, am !! q = Some ms /\ Exists (fun sm => sm_params sm = []) ms) <->
                           exists ms sm, am !! q = Some ms /\ sm ∈ ms /\ sm_params sm = []).
  { intros q. setoid_rewrite Exists_exists. naive_solver. }
  destruct api; simpl;
    try (split; [discriminate | by intros (q & ms & sm & [=] & _)]).
  - rewrite generate_type_None by (intros _; discriminate).
    rewrite add_superclass_stuff_None, Hkey. naive_solver.
  - rewrite generate_type_None by (intros _; discriminate).
    rewrite add_superclass_stuff_None, Hkey. naive_solver.
  - rewrite generate_type_None by (intros [? | ?]; discriminate).
    rewrite add_superclass_stuff_None, Hkey. naive_solver.
  - rewrite generate_type_None by (intros [? | ?]; discriminate).
    rewrite add_superclass_stuff_None, Hkey. naive_solver.
  - rewrite generate_subclass_None, Hkey. naive_solver.
Qed.

(** [generate_rs_for_api] panics exactly for a type or a subclass whose
    superclass-method list (the record's own for a type, its superclass's
    for a subclass) holds a method with no parameter: every other API, and
    every type or subclass without such a list, gives a bundle. *)
Lemma generate_rs_for_api_None (ext : Externals) (self : RsCodeGenerator) (api : Api)
    (am : gmap QualifiedName (list SuperclassMethod)) (subs : gset QualifiedName) :
  generate_rs_for_api ext self api am subs = None <->
  exists q ms sm, superclass_key api = Some q /\ am !! q = Some ms /\ sm ∈ ms /\ sm_params sm = [].
Proof. apply generate_rs_for_api_None_iff. Qed.

Lemma codegen_one_None (ext : Externals) (self : RsCodeGenerator)
    (am : gmap QualifiedName (list SuperclassMethod)) (subs : gset QualifiedName) (api : Api) :
  codegen_one ext self am subs api = None <-> generate_rs_for_api ext self api am subs = None.
Proof. unfold codegen_one. destruct (generate_rs_for_api _ _ _ _ _); simpl; split; congruence. Qed.

Lemma accumulate_lookup_Some (self : RsCodeGenerator) (apis : list Api) (q : QualifiedName)
    (ms : list SuperclassMethod) :
  accumulate_superclass_methods self apis !! q = Some ms <->
  q ∈ map new_from_cpp_name (superclasses (config self)) /\ ms = omap (virtual_method_on q) apis.
Proof.
  unfold accumulate_superclass_methods. rewrite accumulate_fold_lookup, superclasses_lookup.
  case_decide; simpl; naive_solver.
Qed.

Lemma virtual_method_on_Some (q : QualifiedName) (api : Api) (sm : SuperclassMethod) :
  virtual_method_on q api = Some sm <->
  exists name f a rm, api = ApiFunction name f a /\ virtual_receiver a = Some (q, rm) /\
                      sm = superclass_method_of name a rm.
Proof.
  split.
  - destruct api as [| name f a | | | | | | | | | | | | |]; simpl; try discriminate.
    destruct (virtual_receiver a) as [[r rm] |] eqn:Hv; [| discriminate].
    case_decide as Hq; [subst r | discriminate]. intros [= <-]. eauto 7.
  - intros (name & f & a & rm & -> & Hv & ->). simpl. rewrite Hv. by rewrite decide_True.
Qed.

(** [rs_codegen] panics exactly when the input has a type or subclass
    whose key (the record itself, or the superclass) is a configured
    superclass, and the input also has a virtual or pure virtual method
    with that receiver and an empty parameter list.  Any other input is
    turned into code. *)
Lemma rs_codegen_None (ext : Externals) (self : RsCodeGenerator) (ord : IterOrder)
    (bindgen_mod_name : Ident) (apis : list Api) :
  rs_codegen ext self ord bindgen_mod_name apis = None <->
  exists api q name f a rm,
    api ∈ apis /\ superclass_key api = Some q /\
    q ∈ map new_from_cpp_name (superclasses (config self)) /\
    ApiFunction name f a ∈ apis /\ virtual_receiver a = Some (q, rm) /\ fa_params a = [].
Proof.
  transitivity (Exists (fun api => codegen_one ext self (accumulate_superclass_methods self apis)
                                      (find_trivially_constructed_subclasses apis) api = None) apis).
  { rewrite <- mapM_None. unfold rs_codegen.
    destruct (mapM _ apis); simpl; split; congruence. }
  rewrite Exists_exists. setoid_rewrite codegen_one_None.
  setoid_rewrite generate_rs_for_api_None_iff. setoid_rewrite accumulate_lookup_Some.
  split.
  - intros (api & Hin & q & ms & sm & Hk & (Hq & ->) & Hsm & Hp).
    apply list_elem_of_omap in Hsm as (fa & Hfa & Hv).
    apply virtual_method_on_Some in Hv as (name & f & a & rm & -> & Hv & ->).
    exists api, q, name, f, a, rm. naive_solver.
  - intros (api & q & name & f & a & rm & Hin & Hk & Hq & Hfin & Hv & Hp).
    exists api. split; [done |].
    exists q, (omap (virtual_method_on q) apis), (superclass_method_of name a rm).
    split; [done |]. split; [done |]. split; [| done].
    apply list_elem_of_omap. exists (ApiFunction name f a). split; [done |].
    apply virtual_method_on_Some. eauto 7.
Qed.

Lemma codegen_one_mapM (ext : Externals) (self : RsCodeGenerator)
    (am : gmap QualifiedName (list SuperclassMethod)) (subs : gset QualifiedName)
    (apis : list Api) (gens : list RsCodegenResult) :
  mapM (fun api => generate_rs_for_api ext self api am subs) apis = Some gens ->
  mapM (codegen_one ext self am subs) apis =
  Some (zip (zip (map api_name apis) gens) (map (needs_cpp_codegen ext) apis)).
Proof.
  rewrite !mapM_Some. induction 1 as [| api g apis gens Hg _ IH]; simpl; constructor; [| done].
  unfold codegen_one. by rewrite Hg.
Qed.

Lemma map_fst_zip {A B} (l : list A) (k : list B) :
  length l <= length k -> map fst (zip l k) = l.
Proof.
  revert k. induction l as [| x l IH]; intros [| y k]; simpl; intros H; try done; try lia.
  f_equal. apply IH. lia.
Qed.

Lemma map_snd_zip {A B} (l : list A) (k : list B) :
  length k <= length l -> map snd (zip l k) = k.
Proof.
  revert k. induction l as [| x l IH]; intros [| y k]; simpl; intros H; try done; try lia.
  f_equal. apply IH. lia.
Qed.

Lemma existsb_map_id {A} (f : A -> bool) (l : list A) :
  existsb (fun b => b) (map f l) = existsb f l.
Proof. induction l as [| x l IH]; simpl; [done | by rewrite IH]. Qed.

Lemma rs_codegen_shape (ext : Externals) (self : RsCodeGenerator) (ord : IterOrder)
    (bindgen_mod_name : Ident) (apis : list Api) (gens : list RsCodegenResult) :
  mapM (fun api => generate_rs_for_api ext self api (accumulate_superclass_methods self apis)
                     (find_trivially_constructed_subclasses apis)) apis = Some gens ->
  let items := zip (map api_name apis) gens in
  rs_codegen ext self ord bindgen_mod_name apis =
  Some (concat (map global_items gens) ++
        [IMod bindgen_mod_name [IMod "root" (generate_final_bindgen_mods self ord items)];
         IMod "cxxbridge"
           (concat (map bridge_items gens) ++
            [IForeignMod true "C++"
               (concat (map extern_c_mod_items gens) ++
                map FInclude (include_list self ++
                              if existsb (needs_cpp_codegen ext) apis
                              then ["autocxxgen_" +s+ mod_name (config self) +s+ ".h"] else []));
             IForeignMod false "Rust" (concat (map extern_rust_mod_items gens))]);
         IUse ["bindgen"; "root"] None] ++
        generate_final_use_statements ext items).
Proof.
  intros Hgens items. pose proof (length_mapM _ _ _ Hgens) as Hlen.
  unfold rs_codegen. rewrite (codegen_one_mapM _ _ _ _ _ _ Hgens). simpl.
  rewrite map_fst_zip by (rewrite length_zip, !length_map; lia).
  rewrite map_snd_zip by (rewrite length_map; lia).
  rewrite map_snd_zip by (rewrite length_zip, !length_map; lia).
  rewrite existsb_map_id. fold items.
  unfold generate_final_bindgen_mods at 1.
  destruct (append_child_bindgen_namespace self ord (nse_new entry_ns items) []); simpl;
    by rewrite <- !app_assoc.
Qed.
(** When every API gives its bundle, [rs_codegen] puts out, in this
    order: the global items of all bundles; the bindgen module (always
    emitted, since its [root] ends with the utility re-exports) holding
    [root] with the namespace-organised bindgen items; the [cxxbridge]
    module with the bridge items, then the [extern "C++"] block (all
    foreign items, then one [include!] per configured header, then
    [autocxxgen_<mod>.h] iff some API needs C++ code generated), then the
    [extern "Rust"] block; the [use bindgen::root]; and the
    namespace-organised re-exports. *)
Lemma rs_codegen_layout (ext : Externals) (self : RsCodeGenerator) (ord : IterOrder)
    (bindgen_mod_name : Ident) (apis : list Api) (gens : list RsCodegenResult) :
  mapM (fun api => generate_rs_for_api ext self api (accumulate_superclass_methods self apis)
                     (find_trivially_constructed_subclasses apis)) apis = Some gens ->
  let items := zip (map api_name apis) gens in
  rs_codegen ext self ord bindgen_mod_name apis =
  Some (concat (map global_items gens) ++
        [IMod bindgen_mod_name [IMod "root" (generate_final_bindgen_mods self ord items)];
         IMod "cxxbridge"
           (concat (map bridge_items gens) ++
            [IForeignMod true "C++"
               (concat (map extern_c_mod_items gens) ++
                map FInclude (include_list self ++
                              if existsb (needs_cpp_codegen ext) apis
                              then ["autocxxgen_" +s+ mod_name (config self) +s+ ".h"] else []));
             IForeignMod false "Rust" (concat (map extern_rust_mod_items gens))]);
         IUse ["bindgen"; "root"] None] ++
        generate_final_use_statements ext items).
Proof. apply rs_codegen_shape. Qed.


Lemma rs_codegen_layout_witness :
  exists gens,
  mapM (fun api => generate_rs_for_api example_ext example_generator api
                     (accumulate_superclass_methods example_generator two_failed_methods)
                     (find_trivially_constructed_subclasses two_failed_methods)) two_failed_methods
    = Some gens /\
  let items := zip (map api_name two_failed_methods) gens in
  rs_codegen example_ext example_generator (fun l => l) "bindgen" two_failed_methods =
  Some (concat (map global_items gens) ++
        [IMod "bindgen" [IMod "root" (generate_final_bindgen_mods example_generator (fun l => l) items)];
         IMod "cxxbridge"
           (concat (map bridge_items gens) ++
            [IForeignMod true "C++"
               (concat (map extern_c_mod_items gens) ++
                map FInclude (include_list example_generator ++
                              if existsb (needs_cpp_codegen example_ext) two_failed_methods
                              then ["autocxxgen_" +s+ mod_name (config example_generator) +s+ ".h"]
                              else []));
             IForeignMod false "Rust" (concat (map extern_rust_mod_items gens))]);
         IUse ["bindgen"; "root"] None] ++
        generate_final_use_statements example_ext items).
Proof.
  eexists. split; [reflexivity |].
  apply rs_codegen_layout. reflexivity.
Defined.

(** ** Every entry reaches its namespace module *)

Lemma elem_of_flat_map {A B} (f : A -> list B) (l : list A) (x : B) :
  x ∈ flat_map f l <-> exists y, y ∈ l /\ x ∈ f y.
Proof. rewrite list_elem_of_In, in_flat_map. setoid_rewrite list_elem_of_In. done. Qed.

Lemma is_empty_eq {A} (es : list A) (ch : list (string * NamespaceEntries A)) :
  is_empty (NSE es ch) = bool_decide (es = []) && forallb (fun sc => is_empty sc.2) ch.
Proof. simpl. f_equal. induction ch as [| [s c] ch IH]; simpl; [done | by rewrite IH]. Qed.

Lemma strip_path_elem {A} (s : string) (p : list string) (x : A) (l : list (list string * A)) :
  (s :: p, x) ∈ l -> (p, x) ∈ strip_path [s] l.
Proof.
  intros Hin. unfold strip_path. apply list_elem_of_omap. exists (s :: p, x).
  split; [done |]. simpl. by rewrite String.eqb_refl.
Qed.

(** The child of a well-formed node for a segment some entry lies below. *)
Lemma nse_inv_child {A} (es : list A) (ch : list (string * NamespaceEntries A))
    (l : list (list string * A)) (s : string) (p : list string) (x : A) :
  nse_inv (NSE es ch) l -> (s :: p, x) ∈ l ->
  exists c, (s, c) ∈ ch /\ nse_inv c (strip_path [s] l) /\ (p, x) ∈ strip_path [s] l.
Proof.
  intros Hinv Hin. inversion Hinv as [es' ch' l' Hes Hnd Hne Hch Hcomp]; subst es' ch' l'.
  pose proof (strip_path_elem _ _ _ _ Hin) as Hin'.
  destruct (decide (s ∈ map fst ch)) as [Hs | Hs].
  - apply list_elem_of_fmap in Hs as ([s' c] & -> & Hsc). exists c. simpl. eauto.
  - rewrite (Hcomp s Hs) in Hin'. apply elem_of_nil in Hin' as [].
Qed.

Lemma nse_inv_not_empty {A} (p : list string) :
  forall (x : A) (t : NamespaceEntries A) (l : list (list string * A)),
  nse_inv t l -> (p, x) ∈ l -> is_empty t = false.
Proof.
  induction p as [| s p IH]; intros x [es ch] l Hinv Hin; rewrite is_empty_eq.
  - inversion Hinv as [es' ch' l' Hes Hnd Hne Hch Hcomp]; subst es' ch' l'.
    assert (Hx : x ∈ map snd (filter (fun pe => pe.1 = []) l)).
    { apply list_elem_of_fmap. exists ([], x). split; [done |]. by apply list_elem_of_filter. }
    rewrite bool_decide_false; [done |]. intros ->. rewrite <- Hes in Hx. apply elem_of_nil in Hx as [].
  - destruct (nse_inv_child _ _ _ _ _ _ Hinv Hin) as (c & Hc & Hcinv & Hin').
    rewrite andb_false_iff. right. apply not_true_iff_false. rewrite forallb_forall.
    intros Hall. specialize (Hall _ (proj1 (list_elem_of_In _ _) Hc)). simpl in Hall.
    by rewrite (IH x c _ Hcinv Hin') in Hall.
Qed.




Lemma at_mod_path_app_r (p : list string) (P : list Item -> Prop)
    (HP : forall out more, P out -> P (out ++ more)) :
  forall out more, at_mod_path p out P -> at_mod_path p (out ++ more) P.
Proof.
  destruct p as [| s p]; simpl; intros out more H; [by apply HP |].
  destruct H as (inner & Hin & H). exists inner. split; [| done].
  apply elem_of_app. by left.
Qed.

Lemma shows_bindgen_app (e : QualifiedName * RsCodegenResult) (out more : list Item) :
  shows_bindgen e out -> shows_bindgen e (out ++ more).
Proof.
  intros [H1 H2]. split.
  - intros x Hx. apply elem_of_app. left. by apply H1.
  - intros ie Hie. destruct (H2 ie Hie) as (fs & Hfs & Hi). exists fs.
    split; [apply elem_of_app; by left | done].
Qed.

Lemma shows_bindgen_nonempty (e : QualifiedName * RsCodegenResult) (p : list string)
    (out : list Item) :
  bindgen_mod_items e.2 <> [] \/ impl_entry e.2 <> None ->
  at_mod_path p out (shows_bindgen e) -> out <> [].
Proof.
  intros Hc. destruct p as [| s p]; simpl.
  - intros [H1 H2] ->. destruct Hc as [Hc | Hc].
    + destruct (bindgen_mod_items e.2) as [| x xs]; [done |].
      apply (elem_of_nil x). apply H1. apply elem_of_cons. by left.
    + destruct (impl_entry e.2) as [ie |]; [| done].
      destruct (H2 ie eq_refl) as (fs & Hfs & _). apply elem_of_nil in Hfs as [].
  - intros (inner & Hin & _) ->. apply elem_of_nil in Hin as [].
Qed.

Lemma bindgen_rendering_reaches (self : RsCodeGenerator) (ord : IterOrder)
    (Hord : valid_iter_order ord) (p : list string) :
  forall (e : QualifiedName * RsCodegenResult) t l ns,
  bindgen_mod_items e.2 <> [] \/ impl_entry e.2 <> None ->
  nse_inv t l -> (p, e) ∈ l ->
  at_mod_path p (append_child_bindgen_namespace self ord t ns) (shows_bindgen e).
Proof.
  induction p as [| s p IH]; intros e [es ch] l ns Hc Hinv Hin; rewrite bindgen_render_eq; simpl.
  - inversion Hinv as [es' ch' l' Hes Hnd Hne Hch Hcomp]; subst es' ch' l'.
    assert (He : e ∈ es).
    { rewrite Hes. apply list_elem_of_fmap. exists ([], e). split; [done |].
      by apply list_elem_of_filter. }
    split.
    + intros x Hx. apply elem_of_app. left. apply elem_of_flat_map. by exists e.
    + intros ie Hie. exists (impl_items_for (ibd_ty ie) (impl_entries_of es)). split.
      * apply elem_of_app. right. apply elem_of_app. left.
        apply merged_impls_elem; [exact Hord |]. exists ie. split; [| done].
        apply list_elem_of_omap. by exists e.
      * unfold impl_items_for. apply list_elem_of_fmap. exists ie. split; [done |].
        apply list_elem_of_filter. split; [done |]. apply list_elem_of_omap. by exists e.
  - destruct (nse_inv_child _ _ _ _ _ _ Hinv Hin) as (c & Hsc & Hcinv & Hin').
    pose proof (IH e c _ (ns ++ [s]) Hc Hcinv Hin') as Hrec.
    pose proof (shows_bindgen_nonempty _ _ _ Hc Hrec) as Hne.
    exists (append_child_bindgen_namespace self ord c (ns ++ [s]) ++ append_uses_for_ns self (ns ++ [s])).
    split.
    + apply elem_of_app. right. apply elem_of_app. right. apply elem_of_flat_map.
      exists (s, c). split; [done |]. simpl.
      destruct (append_child_bindgen_namespace self ord c (ns ++ [s])); [done |].
      apply list_elem_of_singleton. done.
    + apply at_mod_path_app_r; [apply shows_bindgen_app | exact Hrec].
Qed.

(** The bindgen rendering loses no entry that contributes something: the
    bindgen items of an entry of namespace [ns], and the merged impl
    block holding the item of its impl entry, lie in the nested modules
    [pub mod ns_1 { ... pub mod ns_k { ... } }] of the bindgen root,
    whatever order the [HashMap] hands out the impl types in. *)
Lemma bindgen_mods_keep_every_entry (self : RsCodeGenerator) (ord : IterOrder)
    (items : list (QualifiedName * RsCodegenResult)) (e : QualifiedName * RsCodegenResult) :
  valid_iter_order ord -> e ∈ items ->
  bindgen_mod_items e.2 <> [] \/ impl_entry e.2 <> None ->
  at_mod_path (entry_ns e) (generate_final_bindgen_mods self ord items) (shows_bindgen e).
Proof.
  intros Hord He Hc. unfold generate_final_bindgen_mods.
  apply at_mod_path_app_r; [apply shows_bindgen_app |].
  apply (bindgen_rendering_reaches self ord Hord _ e _ _ [] Hc (nse_new_inv entry_ns items)).
  apply list_elem_of_fmap. by exists e.
Qed.

Lemma bindgen_mods_keep_every_entry_witness :
  valid_iter_order (fun l => l) /\
  (QN [] "A_f", error_bundle (Some (ImplBlockDetails_ failed_method_fn "A")) []) ∈ root_entries /\
  at_mod_path [] (generate_final_bindgen_mods example_generator (fun l => l) root_entries)
    (shows_bindgen (QN [] "A_f", error_bundle (Some (ImplBlockDetails_ failed_method_fn "A")) [])).
Proof.
  split; [exact valid_iter_order_id |]. split; [apply elem_of_cons; left; reflexivity |].
  apply (bindgen_mods_keep_every_entry example_generator (fun l => l) root_entries
           (QN [] "A_f", error_bundle (Some (ImplBlockDetails_ failed_method_fn "A")) [])).
  - exact valid_iter_order_id.
  - apply elem_of_cons. left. reflexivity.
  - right. simpl. discriminate.
Defined.

(** ** Where the relative paths of the output lead *)

Lemma resolve_supers_repeat (m k rest : list string) :
  head rest <> Some "super" ->
  resolve_supers (m ++ k) (repeat "super" (length k) ++ rest) = m ++ rest.
Proof.
  intros Hrest. induction k as [| x k IH] using rev_ind; simpl.
  - rewrite app_nil_r. destruct rest as [| s rest]; simpl; [by rewrite app_nil_r |].
    destruct (String.eqb_spec s "super") as [-> | _]; [done | reflexivity].
  - rewrite length_app, Nat.add_comm. simpl.
    rewrite app_assoc, removelast_last. exact IH.
Qed.

Lemma resolve_repeat (m k rest : list string) :
  head rest <> Some "super" -> head rest <> Some "self" ->
  resolve (m ++ k) (repeat "super" (length k) ++ rest) = m ++ rest.
Proof.
  intros Hsuper Hself. destruct k as [| x k].
  - rewrite app_nil_r. simpl. destruct rest as [| s rest]; simpl; [by rewrite app_nil_r |].
    destruct (String.eqb_spec s "self") as [-> | _]; [done |].
    destruct (String.eqb_spec s "super") as [-> | _]; [done | reflexivity].
  - simpl. apply (resolve_supers_repeat m (x :: k) rest Hsuper).
Qed.

Lemma resolve_self_repeat (m k rest : list string) (n : nat) :
  length k = n -> head rest <> Some "super" ->
  resolve (m ++ k) ("self" :: repeat "super" n ++ rest) = m ++ rest.
Proof. intros <- Hrest. apply resolve_supers_repeat. exact Hrest. Qed.

(** The relative paths the generated code writes lead where they must,
    with the crate's [get_bindgen_path_idents] ([bindgen::root::ns::id]).
    A re-export written in the module [out::ns] of the entry's namespace
    imports [out::cxxbridge::id] for an item of the bridge, and
    [out::bindgen::root::ns::id] for an item of bindgen.  The utility
    imports at the end of the bindgen module of namespace [ns] import
    [out::cxxbridge], [out::ToCppString] (unless the utilities are
    excluded) and the bindgen [root]; and a bridge type that refers to a
    bindgen definition refers to [out::bindgen::root::ns::id]. *)
Lemma relative_paths_resolve (ext : Externals) (self : RsCodeGenerator) (out : list string) :
  (forall q, get_bindgen_path_idents ext q = ["bindgen"; "root"] ++ qn_ns q ++ [qn_name q]) ->
  (forall name m, (forall item, m <> Custom item) ->
     use_target (out ++ qn_ns name) (materialize ext name m) =
     Some (out ++ match m with
                  | UsedFromCxxBridge | UsedFromCxxBridgeWithAlias _ => ["cxxbridge"; qn_name name]
                  | UsedFromBindgen => ["bindgen"; "root"] ++ qn_ns name ++ [qn_name name]
                  | SpecificNameFromBindgen id => ["bindgen"; "root"] ++ qn_ns name ++ [id]
                  | Custom _ => []
                  end)) /\
  (forall bindgen_mod_name ns,
     map (use_target (out ++ [bindgen_mod_name; "root"] ++ ns)) (append_uses_for_ns self ns) =
     map Some ([out ++ ["cxxbridge"]] ++
               (if exclude_utilities (config self) then [] else [out ++ ["ToCppString"]]) ++
               [out ++ [bindgen_mod_name; "root"]])) /\
  (forall name doc,
     type_target (out ++ ["cxxbridge"]) (generate_cxxbridge_type self name true doc) =
     Some (out ++ ["bindgen"; "root"] ++ qn_ns name ++ [qn_name name])).
Proof.
  intros Hb. split; [| split].
  - intros name m Hm. destruct m as [| alias | | id | item];
      [| | | | by destruct (Hm item)]; simpl;
      unfold generate_cxx_use_stmt, generate_bindgen_use_stmt, find_output_mod_root;
      rewrite ?Hb; simpl; f_equal; apply resolve_repeat; discriminate.
  - intros bmn ns. unfold append_uses_for_ns.
    assert (H2 : forall last, head last <> Some "super" ->
              resolve (out ++ [bmn; "root"] ++ ns)
                ("self" :: repeat "super" (length ns + 2) ++ last) = out ++ last).
    { intros last Hl. apply resolve_self_repeat; [simpl; lia | exact Hl]. }
    assert (H1 : resolve (out ++ [bmn; "root"] ++ ns)
                   ("self" :: repeat "super" (length ns + 1) ++ ["root"]) = out ++ [bmn; "root"]).
    { replace (out ++ [bmn; "root"] ++ ns) with ((out ++ [bmn]) ++ ["root"] ++ ns)
        by (by rewrite <- app_assoc).
      rewrite resolve_self_repeat; [by rewrite <- app_assoc | simpl; lia | discriminate]. }
    change ([bmn; "root"] ++ ns) with (bmn :: "root" :: ns) in H1, H2.
    destruct (exclude_utilities (config self)); cbn [map use_target app];
      rewrite ?H2, H1 by discriminate; reflexivity.
  - intros name doc. unfold generate_cxxbridge_type.
    destruct (original_name_map self !! name); simpl; rewrite removelast_last; reflexivity.
Qed.

Lemma relative_paths_resolve_witness :
  (forall q, get_bindgen_path_idents example_ext q = ["bindgen"; "root"] ++ qn_ns q ++ [qn_name q]) /\
  use_target (["ffi"] ++ ["a"]) (materialize example_ext (QN ["a"] "X") UsedFromBindgen) =
    Some (["ffi"] ++ ["bindgen"; "root"] ++ ["a"] ++ ["X"]).
Proof.
  split; [intros q; reflexivity |].
  apply (proj1 (relative_paths_resolve example_ext example_generator ["ffi"]
                  (fun q => eq_refl)) (QN ["a"] "X") UsedFromBindgen).
  intros item. discriminate.
Defined.

(** ** The peer constructor of a subclass *)




(** ** Which modules the renderings emit *)

Lemma strip_path_elem_inv {A} (s : string) (r : list string) (x : A) (l : list (list string * A)) :
  (r, x) ∈ strip_path [s] l -> (s :: r, x) ∈ l.
Proof.
  unfold strip_path. rewrite list_elem_of_omap. intros ([q y] & Hin & Hs).
  cbn [fst snd] in Hs.
  destruct (strip_prefix [s] q) as [r' |] eqn:Hq; simpl in Hs; [| discriminate].
  injection Hs as -> ->. apply strip_prefix_Some in Hq. simpl in Hq. by subst q.
Qed.

Lemma uses_for_ns_no_mod (self : RsCodeGenerator) (ns : list string) (x : Item) :
  x ∈ append_uses_for_ns self ns -> ~ is_mod x.
Proof.
  unfold append_uses_for_ns. intros Hx (s & m & ->).
  destruct (exclude_utilities (config self)); simpl in Hx;
    repeat (apply elem_of_cons in Hx as [Hx | Hx]; [discriminate |]);
    apply elem_of_nil in Hx as [].
Qed.

Lemma merged_impls_no_mod (ord : IterOrder) (m : gmap Ident (list FnDef)) (x : Item) :
  x ∈ merged_impls ord m -> ~ is_mod x.
Proof.
  unfold merged_impls. rewrite list_elem_of_fmap. intros (ty & -> & _) (s & m' & H). discriminate.
Qed.

Lemma in_mod_path_app_l (s : string) (p : list string) (out more inner : list Item) :
  (forall y, y ∈ more -> ~ is_mod y) ->
  in_mod_path (s :: p) (out ++ more) inner -> in_mod_path (s :: p) out inner.
Proof.
  intros Hmore (m & Hm & H). exists m. split; [| done].
  apply elem_of_app in Hm as [Hm | Hm]; [done |].
  exfalso. apply (Hmore _ Hm). by exists s, m.
Qed.

Lemma nonempty_elem {A} (l : list A) : l <> [] -> exists x, x ∈ l.
Proof. destruct l as [| x l]; [done |]. intros _. exists x. apply elem_of_cons. by left. Qed.

Lemma nse_inv_entry {A} (es : list A) (ch : list (string * NamespaceEntries A))
    (l : list (list string * A)) (e : A) :
  es = map snd (filter (fun pe => pe.1 = []) l) -> e ∈ es -> ([], e) ∈ l.
Proof.
  intros -> He. apply list_elem_of_fmap in He as ([q e'] & -> & Hin).
  apply list_elem_of_filter in Hin as [Hq Hin]. simpl in Hq, Hin |- *. by subst q.
Qed.

Lemma bindgen_rendering_nonempty (self : RsCodeGenerator) (ord : IterOrder)
    (Hord : valid_iter_order ord) :
  forall t l, nse_inv t l -> forall ns,
  append_child_bindgen_namespace self ord t ns <> [] ->
  exists q e, (q, e) ∈ l /\ (bindgen_mod_items e.2 <> [] \/ impl_entry e.2 <> None).
Proof.
  induction 1 as [es ch l Hes Hnd Hne Hch IH Hcomp]. intros ns Hr.
  apply nonempty_elem in Hr as [x Hx]. rewrite bindgen_render_eq, !elem_of_app in Hx.
  destruct Hx as [Hx | [Hx | Hx]].
  - apply elem_of_flat_map in Hx as (e & He & Hx).
    exists [], e. split; [exact (nse_inv_entry es ch l e Hes He) |].
    left. intros Hnil. rewrite Hnil in Hx. apply elem_of_nil in Hx as [].
  - apply (merged_impls_elem ord Hord) in Hx as (ie & Hie & _).
    apply list_elem_of_omap in Hie as (e & He & Hie).
    exists [], e. split; [exact (nse_inv_entry es ch l e Hes He) |].
    right. by rewrite Hie.
  - apply elem_of_flat_map in Hx as ([s c] & Hsc & Hx). simpl in Hx.
    destruct (append_child_bindgen_namespace self ord c (ns ++ [s])) as [| y ys] eqn:Hc;
      [apply elem_of_nil in Hx as [] |].
    destruct (IH s c Hsc (ns ++ [s])) as (q & e & Hqe & Hcontr); [by rewrite Hc |].
    exists (s :: q), e. split; [by apply strip_path_elem_inv | exact Hcontr].
Qed.

Lemma has_no_mod_spec (l : list Item) (x : Item) : has_no_mod l = true -> x ∈ l -> ~ is_mod x.
Proof.
  unfold has_no_mod. rewrite forallb_forall. intros Hall Hx (s & m & ->).
  apply list_elem_of_In in Hx. specialize (Hall _ Hx). discriminate.
Qed.

Lemma forallb_elem {A} (f : A -> bool) (l : list A) (x : A) :
  forallb f l = true -> x ∈ l -> f x = true.
Proof. rewrite forallb_forall. intros Hall Hx. apply Hall. by apply list_elem_of_In. Qed.

Lemma entry_pairs_elem (items : list (QualifiedName * RsCodegenResult)) (q : list string)
    (e : QualifiedName * RsCodegenResult) :
  (q, e) ∈ map (fun x => (entry_ns x, x)) items <-> e ∈ items /\ entry_ns e = q.
Proof.
  rewrite list_elem_of_fmap. split.
  - intros (e' & Heq & He). injection Heq as -> ->. done.
  - intros [He <-]. by exists e.
Qed.

Lemma bindgen_mod_chain (self : RsCodeGenerator) (ord : IterOrder)
    (Hord : valid_iter_order ord) (p : list string) :
  forall t l ns inner, nse_inv t l ->
  (forall q e x, (q, e) ∈ l -> x ∈ bindgen_mod_items e.2 -> ~ is_mod x) ->
  p <> [] -> in_mod_path p (append_child_bindgen_namespace self ord t ns) inner ->
  (exists body, inner = body ++ append_uses_for_ns self (ns ++ p)) /\
  exists r e, (p ++ r, e) ∈ l /\ (bindgen_mod_items e.2 <> [] \/ impl_entry e.2 <> None).
Proof.
  induction p as [| s p IH]; [done |].
  intros [es ch] l ns inner Hinv Hnm _ (m & Hm & Hp).
  inversion Hinv as [es' ch' l' Hes Hnd Hne Hch Hcomp]; subst es' ch' l'.
  rewrite bindgen_render_eq, !elem_of_app in Hm.
  destruct Hm as [Hm | [Hm | Hm]].
  - apply elem_of_flat_map in Hm as (e & He & Hm). exfalso.
    apply (Hnm [] e _ (nse_inv_entry es ch l e Hes He) Hm). by exists s, m.
  - exfalso. apply (merged_impls_no_mod _ _ _ Hm). by exists s, m.
  - apply elem_of_flat_map in Hm as ([s' c] & Hsc & Hm). simpl in Hm.
    destruct (append_child_bindgen_namespace self ord c (ns ++ [s'])) as [| y ys] eqn:Hc;
      [apply elem_of_nil in Hm as [] |].
    apply list_elem_of_singleton in Hm. injection Hm as <- ->.
    pose proof (Hch s c Hsc) as Hcinv.
    assert (Hnm' : forall q e x, (q, e) ∈ strip_path [s] l -> x ∈ bindgen_mod_items e.2 -> ~ is_mod x)
      by (intros q e x Hqe; apply (Hnm (s :: q) e x), strip_path_elem_inv, Hqe).
    destruct p as [| s2 p'].
    + simpl in Hp. subst inner. split; [by exists (y :: ys) |].
      destruct (bindgen_rendering_nonempty self ord Hord c _ Hcinv (ns ++ [s]))
        as (q & e & Hqe & Hcontr); [by rewrite Hc |].
      exists q, e. split; [by apply strip_path_elem_inv | exact Hcontr].
    + apply (in_mod_path_app_l s2 p' (y :: ys)) in Hp; [| apply uses_for_ns_no_mod].
      rewrite <- Hc in Hp.
      destruct (IH c _ (ns ++ [s]) inner Hcinv Hnm' ltac:(discriminate) Hp)
        as [(body & Hbody) (r & e & Hre & Hcontr)].
      split.
      * exists body. rewrite Hbody, <- app_assoc. reflexivity.
      * exists r, e. split; [by apply strip_path_elem_inv | exact Hcontr].
Qed.

(** Every module of the bindgen root, the root included, ends with the
    utility imports for its depth ([cxxbridge], [ToCppString] unless
    excluded, [root]); and a namespace module is emitted only when some
    entry of that namespace or below contributes bindgen items or an impl
    entry (so that, with [bindgen_mods_keep_every_entry], the namespace
    modules are exactly those of contributing entries).  The entries'
    own bindgen items must not be modules. *)
Lemma bindgen_mods_shape (self : RsCodeGenerator) (ord : IterOrder)
    (items : list (QualifiedName * RsCodegenResult)) (p : list string) (inner : list Item) :
  valid_iter_order ord ->
  forallb (fun e => has_no_mod (bindgen_mod_items e.2)) items = true ->
  in_mod_path p (generate_final_bindgen_mods self ord items) inner ->
  (exists body, inner = body ++ append_uses_for_ns self p) /\
  (p <> [] -> exists e, e ∈ items /\ p `prefix_of` entry_ns e /\
                        (bindgen_mod_items e.2 <> [] \/ impl_entry e.2 <> None)).
Proof.
  intros Hord Hnm Hp. destruct p as [| s p].
  - simpl in Hp. subst inner. split; [| done]. by eexists.
  - unfold generate_final_bindgen_mods in Hp.
    apply in_mod_path_app_l in Hp; [| apply uses_for_ns_no_mod].
    destruct (bindgen_mod_chain self ord Hord (s :: p) _ _ [] inner (nse_new_inv entry_ns items))
      as [Hshape (r & e & Hre & Hcontr)]; [| done | exact Hp |].
    + intros q e x Hqe. apply entry_pairs_elem in Hqe as [He _].
      apply has_no_mod_spec. exact (forallb_elem _ _ _ Hnm He).
    + split; [exact Hshape |]. intros _. apply entry_pairs_elem in Hre as [He Hns].
      exists e. split; [done |]. split; [by exists r | exact Hcontr].
Qed.

Lemma bindgen_mods_shape_witness :
  exists inner,
  valid_iter_order (fun l => l) /\
  forallb (fun e => has_no_mod (bindgen_mod_items e.2)) nested_entries = true /\
  in_mod_path ["a"] (generate_final_bindgen_mods example_generator (fun l => l) nested_entries) inner /\
  (exists body, inner = body ++ append_uses_for_ns example_generator ["a"]) /\
  (["a"] <> [] -> exists e, e ∈ nested_entries /\ ["a"] `prefix_of` entry_ns e /\
                            (bindgen_mod_items e.2 <> [] \/ impl_entry e.2 <> None)).
Proof.
  assert (Hp : in_mod_path ["a"] (generate_final_bindgen_mods example_generator (fun l => l) nested_entries)
                 ([IConst "C" "1"] ++ append_uses_for_ns example_generator ["a"])).
  { vm_compute. eexists. split; [apply elem_of_cons; left; reflexivity | reflexivity]. }
  eexists. split; [exact valid_iter_order_id |]. split; [reflexivity |]. split; [exact Hp |].
  apply (bindgen_mods_shape example_generator (fun l => l) nested_entries ["a"]).
  - exact valid_iter_order_id.
  - reflexivity.
  - exact Hp.
Defined.

Lemma use_mod_chain_fwd (ext : Externals) (p : list string) :
  forall t l inner, nse_inv t l ->
  (forall q e x, (q, e) ∈ l -> x ∈ use_items_of_entry ext e -> ~ is_mod x) ->
  p <> [] -> in_mod_path p (append_child_use_namespace ext t) inner ->
  exists r e, (p ++ r, e) ∈ l.
Proof.
  induction p as [| s p IH]; [done |].
  intros [es ch] l inner Hinv Hnm _ (m & Hm & Hp).
  inversion Hinv as [es' ch' l' Hes Hnd Hne Hch Hcomp]; subst es' ch' l'.
  rewrite use_render_eq, elem_of_app in Hm. destruct Hm as [Hm | Hm].
  - apply elem_of_flat_map in Hm as (e & He & Hm). exfalso.
    apply (Hnm [] e _ (nse_inv_entry es ch l e Hes He) Hm). by exists s, m.
  - apply elem_of_flat_map in Hm as ([s' c] & Hsc & Hm). simpl in Hm.
    destruct (is_empty c); [apply elem_of_nil in Hm as [] |].
    apply list_elem_of_singleton in Hm. injection Hm as <- ->.
    pose proof (Hch s c Hsc) as Hcinv.
    destruct p as [| s2 p'].
    + destruct (nonempty_elem _ (Hne s c Hsc)) as [[q e] Hqe].
      exists q, e. by apply strip_path_elem_inv.
    + assert (Hnm' : forall q e x, (q, e) ∈ strip_path [s] l -> x ∈ use_items_of_entry ext e ->
                                   ~ is_mod x)
        by (intros q e x Hqe; apply (Hnm (s :: q) e x), strip_path_elem_inv, Hqe).
      destruct (IH c _ inner Hcinv Hnm' ltac:(discriminate) Hp) as (r & e & Hre).
      exists r, e. by apply strip_path_elem_inv.
Qed.

Lemma use_mod_chain_bwd (ext : Externals) (p : list string) :
  forall t l r e, nse_inv t l -> (p ++ r, e) ∈ l ->
  exists inner, in_mod_path p (append_child_use_namespace ext t) inner.
Proof.
  induction p as [| s p IH]; intros [es ch] l r e Hinv Hin; [by eexists |].
  destruct (nse_inv_child _ _ _ _ _ _ Hinv Hin) as (c & Hsc & Hcinv & Hin').
  destruct (IH c _ r e Hcinv Hin') as [inner Hp].
  exists inner, (append_child_use_namespace ext c). split; [| exact Hp].
  rewrite use_render_eq, elem_of_app. right. apply elem_of_flat_map. exists (s, c).
  split; [done |]. simpl. rewrite (nse_inv_not_empty _ _ _ _ Hcinv Hin').
  by apply list_elem_of_singleton.
Qed.

(** The [use] rendering has a chain of modules [ns_1 :: ... :: ns_k]
    exactly when some entry's namespace starts with that path, whether or
    not its entries have anything to re-export (a namespace whose entries
    have no materialization still gets a module, then empty).  The
    custom materializations must not be modules. *)
Lemma use_mods_exactly (ext : Externals) (items : list (QualifiedName * RsCodegenResult))
    (p : list string) :
  forallb (fun e => has_no_mod (use_items_of_entry ext e)) items = true -> p <> [] ->
  (exists inner, in_mod_path p (generate_final_use_statements ext items) inner) <->
  exists e, e ∈ items /\ p `prefix_of` entry_ns e.
Proof.
  intros Hnm Hp. split.
  - intros [inner Hin].
    destruct (use_mod_chain_fwd ext p _ _ inner (nse_new_inv entry_ns items)) as (r & e & Hre);
      [| exact Hp | exact Hin |].
    + intros q e x Hqe. apply entry_pairs_elem in Hqe as [He _].
      apply has_no_mod_spec. exact (forallb_elem _ _ _ Hnm He).
    + apply entry_pairs_elem in Hre as [He Hns]. exists e. split; [done |]. by exists r.
  - intros (e & He & r & Hr).
    apply (use_mod_chain_bwd ext p _ _ r e (nse_new_inv entry_ns items)).
    apply entry_pairs_elem. done.
Qed.

Lemma use_mods_exactly_witness :
  forallb (fun e => has_no_mod (use_items_of_entry example_ext e)) nested_entries = true /\
  ["a"] <> [] /\
  ((exists inner, in_mod_path ["a"] (generate_final_use_statements example_ext nested_entries) inner) <->
   exists e, e ∈ nested_entries /\ ["a"] `prefix_of` entry_ns e).
Proof.
  split; [reflexivity |]. split; [discriminate |].
  apply use_mods_exactly; [reflexivity | discriminate].
Defined.

(** ** The other type bundles *)

(** The bundles of the types [record_type_bundles] leaves out, given the
    traits and uses the superclass step adds.  A nested non-POD record
    gives its value definition made non-POD, an [Opaque] extern-type
    assertion, the impls and a bridge type that refers to the definition;
    an enum gives its definition, a [Trivial] assertion, the impls and a
    bridge type referring to it; neither bridge type carries the doc
    comment.  A forward declaration and a concrete type give no
    definition, no assertion and no impls: a bridge type with no reference
    and no doc comment, and a [pub use cxxbridge::id]. *)
Lemma other_type_bundles (ext : Externals) (self : RsCodeGenerator) (name : QualifiedName)
    (am : gmap QualifiedName (list SuperclassMethod)) (subs : gset QualifiedName)
    (traits : list Item) (mats : list Use) :
  add_superclass_stuff_to_type ext name [] [UsedFromCxxBridge] (am !! name) = Some (traits, mats) ->
  let id := qn_name name in
  let idstr := namespaced_name_using_original_name_map name (original_name_map self) in
  (forall item,
     generate_rs_for_api ext self (ApiStruct name item NonPodNested) am subs =
     Some {| bindgen_mod_items := traits ++ [IStruct (make_non_pod ext item)];
             global_items := [IExternTypeImpl (get_bindgen_path_idents ext name) idstr "Opaque"];
             bridge_items := create_impl_items ext id (config self);
             extern_c_mod_items := [generate_cxxbridge_type self name true None];
             materializations := mats; impl_entry := None; extern_rust_mod_items := [] |}) /\
  (forall item,
     generate_rs_for_api ext self (ApiEnum name item) am subs =
     Some {| bindgen_mod_items := traits ++ [IEnum item];
             global_items := [IExternTypeImpl (get_bindgen_path_idents ext name) idstr "Trivial"];
             bridge_items := create_impl_items ext id (config self);
             extern_c_mod_items := [generate_cxxbridge_type self name true None];
             materializations := mats; impl_entry := None; extern_rust_mod_items := [] |}) /\
  (forall api, api = ApiForwardDeclaration name \/ api = ApiConcreteType name ->
     generate_rs_for_api ext self api am subs =
     Some {| bindgen_mod_items := traits ++ [IUse ["cxxbridge"; id] None];
             global_items := []; bridge_items := [];
             extern_c_mod_items := [generate_cxxbridge_type self name false None];
             materializations := mats; impl_entry := None; extern_rust_mod_items := [] |}).
Proof.
  intros Hadd id idstr. split; [| split].
  - intros item. simpl. unfold generate_type. rewrite Hadd. reflexivity.
  - intros item. simpl. unfold generate_type. rewrite Hadd. reflexivity.
  - intros api [-> | ->]; simpl; unfold generate_type; rewrite Hadd; reflexivity.
Qed.

Lemma other_type_bundles_witness :
  add_superclass_stuff_to_type example_ext (QN ["a"] "E") [] [UsedFromCxxBridge]
    ((∅ : gmap QualifiedName (list SuperclassMethod)) !! QN ["a"] "E") = Some ([], [UsedFromCxxBridge]) /\
  generate_rs_for_api example_ext example_generator (ApiEnum (QN ["a"] "E") (ItemEnum_ None "E" ["X"]))
    ∅ ∅ =
  Some {| bindgen_mod_items := [] ++ [IEnum (ItemEnum_ None "E" ["X"])];
          global_items :=
            [IExternTypeImpl (get_bindgen_path_idents example_ext (QN ["a"] "E"))
               (namespaced_name_using_original_name_map (QN ["a"] "E") (original_name_map example_generator))
               "Trivial"];
          bridge_items := create_impl_items example_ext "E" (config example_generator);
          extern_c_mod_items := [generate_cxxbridge_type example_generator (QN ["a"] "E") true None];
          materializations := [UsedFromCxxBridge]; impl_entry := None; extern_rust_mod_items := [] |}.
Proof.
  split; [reflexivity |].
  exact (proj1 (proj2 (other_type_bundles example_ext example_generator (QN ["a"] "E") ∅ ∅ [] [UsedFromCxxBridge]
                         eq_refl)) (ItemEnum_ None "E" ["X"])).
Defined.

(** ** Namespaces named like the output's own modules *)

Lemma elem_of_zip_fst {A B} (l : list A) (k : list B) (x : A) :
  length l = length k -> x ∈ l -> exists y, (x, y) ∈ zip l k.
Proof.
  revert k. induction l as [| a l IH]; intros [| b k] Hlen Hx; simpl in *; try lia.
  - apply elem_of_nil in Hx as [].
  - apply elem_of_cons in Hx as [-> | Hx].
    + exists b. apply elem_of_cons. by left.
    + destruct (IH k ltac:(lia) Hx) as [y Hy]. exists y. apply elem_of_cons. by right.
Qed.

(** [rs_codegen] does not set apart the C++ namespaces that bear the name
    of its own [cxxbridge] module: when some API lies in a namespace whose
    first segment is [cxxbridge], the output has two top-level modules
    named [cxxbridge], the bridge and the re-export module of that
    namespace. *)
Lemma cxxbridge_namespace_clash (ext : Externals) (self : RsCodeGenerator) (ord : IterOrder)
    (bindgen_mod_name : Ident) (apis : list Api) (gens : list RsCodegenResult) (api : Api)
    (rest : list string) :
  mapM (fun api => generate_rs_for_api ext self api (accumulate_superclass_methods self apis)
                     (find_trivially_constructed_subclasses apis)) apis = Some gens ->
  api ∈ apis -> qn_ns (api_name api) = "cxxbridge" :: rest ->
  exists out i j m1 m2,
    rs_codegen ext self ord bindgen_mod_name apis = Some out /\ i < j /\
    out !! i = Some (IMod "cxxbridge" m1) /\ out !! j = Some (IMod "cxxbridge" m2).
Proof.
  intros Hgens Hapi Hns.
  pose proof (length_mapM _ _ _ Hgens) as Hlen.
  destruct (elem_of_zip_fst (map api_name apis) gens (api_name api)) as [g Hg].
  { by rewrite length_map. }
  { apply list_elem_of_fmap. by exists api. }
  destruct (use_mod_chain_bwd ext ["cxxbridge"] _ _ rest (api_name api, g)
              (nse_new_inv entry_ns (zip (map api_name apis) gens))) as [inner Hin].
  { apply entry_pairs_elem. split; [exact Hg | exact Hns]. }
  destruct Hin as (m & Hm & _).
  apply list_elem_of_lookup_1 in Hm as [k Hk].
  rewrite (rs_codegen_shape ext self ord bindgen_mod_name apis gens Hgens).
  match goal with
  | |- context [Some (?G ++ [?B; IMod "cxxbridge" ?X; ?U] ++ ?US)] =>
      exists (G ++ [B; IMod "cxxbridge" X; U] ++ US), (length G + 1), (length G + 3 + k), X, m
  end.
  split; [reflexivity |]. split; [lia |]. split.
  - rewrite lookup_app_r by lia. replace (length _ + 1 - length _) with 1 by lia. reflexivity.
  - rewrite lookup_app_r by lia. replace (length _ + 3 + k - length _) with (3 + k) by lia.
    exact Hk.
Qed.

Lemma cxxbridge_namespace_clash_witness :
  let apis := [ApiConst (QN ["cxxbridge"] "K") "1"] in
  mapM (fun api => generate_rs_for_api example_ext example_generator api
                     (accumulate_superclass_methods example_generator apis)
                     (find_trivially_constructed_subclasses apis)) apis =
    Some [{| global_items := []; impl_entry := None; bridge_items := [];
             extern_c_mod_items := []; bindgen_mod_items := [IConst "K" "1"];
             materializations := [UsedFromBindgen]; extern_rust_mod_items := [] |}] /\
  ApiConst (QN ["cxxbridge"] "K") "1" ∈ apis /\
  qn_ns (api_name (ApiConst (QN ["cxxbridge"] "K") "1")) = "cxxbridge" :: [] /\
  exists out i j m1 m2,
    rs_codegen example_ext example_generator (fun l => l) "bindgen" apis = Some out /\ i < j /\
    out !! i = Some (IMod "cxxbridge" m1) /\ out !! j = Some (IMod "cxxbridge" m2).
Proof.
  intros apis. split; [reflexivity |]. split; [apply elem_of_cons; left; reflexivity |].
  split; [reflexivity |].
  apply (cxxbridge_namespace_clash example_ext example_generator (fun l => l) "bindgen" apis
           [{| global_items := []; impl_entry := None; bridge_items := [];
               extern_c_mod_items := []; bindgen_mod_items := [IConst "K" "1"];
               materializations := [UsedFromBindgen]; extern_rust_mod_items := [] |}]
           (ApiConst (QN ["cxxbridge"] "K") "1") []).
  - reflexivity.
  - apply elem_of_cons. left. reflexivity.
  - reflexivity.
Defined.
